(** * react-native-vertical-carousel: the rotation / animation state machine

    A shallow embedding of [src/verticalCarousel.tsx].  The component keeps
    three pieces of mutable data (the [copiedItems] React state and the two
    refs [animationTimeout] and [isShowDefaultItemBefore]); React keeps the
    callbacks memoized by [useCallback]; the host keeps the timers created
    by [setTimeout] and the animations started by [Animated ... .start(cb)].
    All of them are made explicit in [State], and every callback of the
    source is a function from [State] to [State].

    A closure is represented by the props of the render that created it.
    [init] depends on [items], so it is created anew by every render that
    supplies a new collection and sees the props of that render.
    [startAnimation] is created anew only when [displayTime],
    [isAnimationEnabled] or [startIndex] changes; otherwise the one of an
    earlier render is kept, together with the [beginAnimation] it calls and
    the [onShow] that [beginAnimation] captured.  The props of that render
    travel with every timer and every animation.

    The props change only when the owner supplies a new item collection;
    a render that keeps the collection and changes another prop is not
    represented.  The interpolated value [animatedTop] is the business of
    the animation library and is not represented: an animation is either in
    flight or completed.  The unused [isPaused] state is left out. *)

From Stdlib Require Import String ZArith List Bool Lia Permutation.
Import ListNotations.
Local Open Scope Z_scope.

(** ** The JavaScript primitives used by the component *)

Module JS.

(** A JavaScript number restricted to the values the component can produce
    from integer props: an integer or [NaN] ([x % 0]).  [-0] is identified
    with [0]; both behave alike in [slice], in [%] and in comparisons.
    The props and the lengths of arrays are doubles to begin with, and
    [rem], [add] and [sub] below give doubles. *)
Inductive number : Type :=
| Num (z : Z)
| NaN.

(** [a % b]: the remainder takes the sign of the dividend, and a zero
    divisor gives [NaN].  The remainder of two doubles is exact. *)
Definition rem (a b : number) : number :=
  match a, b with
  | Num x, Num y => if y =? 0 then NaN else Num (Z.rem x y)
  | _, _ => NaN
  end.

(** A number is a double: an integer is one when it has at most 53
    significant bits.  [round z] is the double nearest to the integer [z],
    a tie going to the even significand; this is how [+] and [-] round
    their exact result.  Up to [2 ^ 53] in magnitude nothing is rounded;
    [2 ^ 53 + 1] becomes [2 ^ 53].  (No sum of the component leaves the
    range of the doubles: it only ever adds or subtracts [1].) *)
Definition round (z : Z) : Z :=
  let e := Z.log2 (Z.abs z) - 52 in
  if e <=? 0 then z
  else
    let ulp := 2 ^ e in
    let q := Z.abs z / ulp in
    let r := Z.abs z mod ulp in
    let q' :=
      if 2 * r <? ulp then q
      else if ulp <? 2 * r then q + 1
      else if Z.even q then q
      else q + 1 in
    Z.sgn z * (q' * ulp).

Definition add (a b : number) : number :=
  match a, b with
  | Num x, Num y => Num (round (x + y))
  | _, _ => NaN
  end.

Definition sub (a b : number) : number :=
  match a, b with
  | Num x, Num y => Num (round (x - y))
  | _, _ => NaN
  end.

(** An array holds at most [2 ^ 32 - 1] elements. *)
Definition max_length : Z := 2 ^ 32 - 1.

(** [ToIntegerOrInfinity]: [NaN] becomes [0]. *)
Definition to_integer (a : number) : Z :=
  match a with
  | Num z => z
  | NaN => 0
  end.

(** The clamping of a relative index done by [Array.prototype.slice]:
    a negative index counts from the end of the array. *)
Definition relative (len i : Z) : Z :=
  if i <? 0 then Z.max (len + i) 0 else Z.min i len.

(** [l.slice(start)] is [slice l start None], [l.slice(start, stop)] is
    [slice l start (Some stop)]. *)
Definition slice {A : Type} (l : list A) (start : number)
    (stop : option number) : list A :=
  let len := Z.of_nat (length l) in
  let k := relative len (to_integer start) in
  let final :=
    match stop with
    | None => len
    | Some e => relative len (to_integer e)
    end in
  firstn (Z.to_nat (final - k)) (skipn (Z.to_nat k) l).

(** [l[i]] for a literal index; [None] is [undefined]. *)
Definition get {A : Type} (l : list A) (i : nat) : option A := nth_error l i.

(** The array left by [l.pop()]. *)
Definition pop {A : Type} (l : list A) : list A := removelast l.

End JS.

Import JS.

(** ** Cyclic shifts

    [shift_left m l] is the mathematical rotation [l[m:] ++ l[:m]];
    [shifted l] is the expression of line 135, the left rotation by one
    written with [slice]. *)

Definition shift_left {A : Type} (m : nat) (l : list A) : list A :=
  skipn m l ++ firstn m l.

Definition shifted {A : Type} (l : list A) : list A :=
  slice l (Num 1) None ++ slice l (Num 0) (Some (Num 1)).

(** ** Data model *)

Section Carousel.

Context {Item Element : Type}.

(** The props of the component.  [defaultItem] and [onShow] are optional
    and only ever tested for truthiness: [None] / [false] stand for a
    missing (or falsy) value.  [startIndex] is an integer. *)
Record Props : Type := mkProps {
  items : list Item;
  renderItem : Item -> Element;
  viewHeight : Z;
  defaultItem : option Item;
  onShow : bool;
  displayTime : Z;
  isAnimationEnabled : bool;
  animationDuration : Z;
  startIndex : Z
}.

(** A timer created by [setTimeout] in [startAnimation] and not yet fired
    or cleared.  Its callback closes over [lastItems] and [counter], and
    over the [beginAnimation] of the render that created this
    [startAnimation]: [timer_props] are the props of that render. *)
Record Timer : Type := mkTimer {
  timer_id : positive;
  timer_props : Props;
  timer_lastItems : list Item;
  timer_counter : number;
  timer_delay : Z
}.

(** An animation started by [beginAnimation] whose completion callback has
    not run yet; [anim_props] are the props of the render that created
    this [beginAnimation]. *)
Record Animation : Type := mkAnimation {
  anim_props : Props;
  anim_lastItems : list Item;
  anim_counter : number
}.

(** The state of one mounted carousel together with the part of the host
    it owns.  [closure] is the [startAnimation] kept by [useCallback], as
    the props of the render that created it; [None] before the first
    render.  [shown] is the sequence of calls made to [onShow], oldest
    first.  A timer handle is a non-zero number, hence truthy. *)
Record State : Type := mkState {
  copiedItems : list Item;
  animationTimeout : option positive;
  isShowDefaultItemBefore : bool;
  closure : option Props;
  timers : list Timer;
  animations : list Animation;
  next_timer : positive;
  shown : list (option Item * number)
}.

Definition initial_state : State :=
  {| copiedItems := [];
     animationTimeout := None;
     isShowDefaultItemBefore := false;
     closure := None;
     timers := [];
     animations := [];
     next_timer := 1%positive;
     shown := [] |}.

(** *** Field updates *)

Definition setCopiedItems (l : list Item) (s : State) : State :=
  {| copiedItems := l;
     animationTimeout := animationTimeout s;
     isShowDefaultItemBefore := isShowDefaultItemBefore s;
     closure := closure s;
     timers := timers s;
     animations := animations s;
     next_timer := next_timer s;
     shown := shown s |}.

Definition set_animationTimeout (h : option positive) (s : State) : State :=
  {| copiedItems := copiedItems s;
     animationTimeout := h;
     isShowDefaultItemBefore := isShowDefaultItemBefore s;
     closure := closure s;
     timers := timers s;
     animations := animations s;
     next_timer := next_timer s;
     shown := shown s |}.

Definition set_isShowDefaultItemBefore (b : bool) (s : State) : State :=
  {| copiedItems := copiedItems s;
     animationTimeout := animationTimeout s;
     isShowDefaultItemBefore := b;
     closure := closure s;
     timers := timers s;
     animations := animations s;
     next_timer := next_timer s;
     shown := shown s |}.

Definition set_closure (q : option Props) (s : State) : State :=
  {| copiedItems := copiedItems s;
     animationTimeout := animationTimeout s;
     isShowDefaultItemBefore := isShowDefaultItemBefore s;
     closure := q;
     timers := timers s;
     animations := animations s;
     next_timer := next_timer s;
     shown := shown s |}.

Definition set_timers (ts : list Timer) (s : State) : State :=
  {| copiedItems := copiedItems s;
     animationTimeout := animationTimeout s;
     isShowDefaultItemBefore := isShowDefaultItemBefore s;
     closure := closure s;
     timers := ts;
     animations := animations s;
     next_timer := next_timer s;
     shown := shown s |}.

Definition set_animations (l : list Animation) (s : State) : State :=
  {| copiedItems := copiedItems s;
     animationTimeout := animationTimeout s;
     isShowDefaultItemBefore := isShowDefaultItemBefore s;
     closure := closure s;
     timers := timers s;
     animations := l;
     next_timer := next_timer s;
     shown := shown s |}.

(** *** Host primitives *)

(** [clearTimeout(h)]: the timer with handle [h], if still pending, never
    fires. *)
Definition clearTimeout (h : positive) (s : State) : State :=
  set_timers
    (filter (fun t => negb (Pos.eqb (timer_id t) h)) (timers s)) s.

(** [setTimeout(cb, delay)]: registers a timer under a fresh handle, which
    is returned with the new state. *)
Definition setTimeout (p : Props) (lastItems : list Item) (counter : number)
    (delay : Z) (s : State) : positive * State :=
  let h := next_timer s in
  (h,
   {| copiedItems := copiedItems s;
      animationTimeout := animationTimeout s;
      isShowDefaultItemBefore := isShowDefaultItemBefore s;
      closure := closure s;
      timers := timers s ++ [mkTimer h p lastItems counter delay];
      animations := animations s;
      next_timer := Pos.succ h;
      shown := shown s |}).

(** One call [onShow(item, index)]. *)
Definition call_onShow (item : option Item) (index : number) (s : State)
    : State :=
  {| copiedItems := copiedItems s;
     animationTimeout := animationTimeout s;
     isShowDefaultItemBefore := isShowDefaultItemBefore s;
     closure := closure s;
     timers := timers s;
     animations := animations s;
     next_timer := next_timer s;
     shown := shown s ++ [(item, index)] |}.

(** *** The memoized [startAnimation] *)

(** The dependency list of [startAnimation] (line 118), compared from one
    render to the next. *)
Definition same_dependencies (q p : Props) : bool :=
  (displayTime q =? displayTime p)
  && Bool.eqb (isAnimationEnabled q) (isAnimationEnabled p)
  && (startIndex q =? startIndex p).

(** [useCallback(..., [displayTime, isAnimationEnabled, startIndex])]
    (lines 104-119) in a render with the props [p]: the [startAnimation]
    of the earlier render is returned when the dependencies are unchanged,
    the one of this render otherwise.  With it comes the [beginAnimation]
    of the same render (lines 121-158): [startAnimation] is among its
    dependencies, and it is the one [startAnimation] refers to. *)
Definition useCallback (p : Props) (s : State) : Props :=
  match closure s with
  | Some q => if same_dependencies q p then q else p
  | None => p
  end.

(** A render with the props [p]: React keeps what [useCallback]
    returned. *)
Definition rendered (p : Props) (s : State) : State :=
  set_closure (Some (useCallback p s)) s.

(** ** The callbacks of the component *)

(** [forceDisplayTime || displayTime]: the first operand unless it is
    missing or zero. *)
Definition delay_of (p : Props) (forceDisplayTime : option Z) : Z :=
  match forceDisplayTime with
  | Some f => if f =? 0 then displayTime p else f
  | None => displayTime p
  end.

(** [startAnimation(lastItems, counter, forceDisplayTime)]
    (lines 104-119), created by a render with the props [p]. *)
Definition startAnimation (p : Props) (lastItems : list Item)
    (counter : number) (forceDisplayTime : option Z) (s : State) : State :=
  if negb (isAnimationEnabled p) || (length lastItems <=? 1)%nat then s
  else
    let '(h, s1) :=
      setTimeout p lastItems counter (delay_of p forceDisplayTime) s in
    set_animationTimeout (Some h) s1.

(** Lines 62-65 of [init]: a pending timer is cleared and its handle
    nulled. *)
Definition reset_timeout (s : State) : State :=
  match animationTimeout s with
  | Some h => set_animationTimeout None (clearTimeout h s)
  | None => s
  end.

(** Lines 66-70 of [init]: [_startIndex] and [_copiedItems]. *)
Definition start_index (l : list Item) (k : Z) : number :=
  rem (Num k) (Num (Z.of_nat (length l))).

Definition rotation (l : list Item) (k : Z) : list Item :=
  let _startIndex := start_index l k in
  slice l _startIndex None ++ slice l (Num 0) (Some _startIndex).

Definition nonempty (l : list Item) : bool :=
  negb (Nat.eqb (length l) 0).

(** An optional prop in a boolean context, and inside an array literal
    once the test has succeeded. *)
Definition supplied (o : option Item) : bool :=
  match o with
  | Some _ => true
  | None => false
  end.

Definition array_of (o : option Item) : list Item :=
  match o with
  | Some d => [d]
  | None => []
  end.

(** [init] (lines 61-102), created by a render with the props [p]: it
    sees the props of that render and the [startAnimation] that
    [useCallback] returned to it, [q] below.  Called without a counter
    (line 99), [startAnimation] takes its own [startIndex]. *)
Definition init (p : Props) (s : State) : State :=
  let q := useCallback p s in
  let s := reset_timeout s in
  let _startIndex := start_index (items p) (startIndex p) in
  let _copiedItems := rotation (items p) (startIndex p) in
  if negb (nonempty (items p)) && supplied (defaultItem p) then
    (* show default item if no items *)
    set_isShowDefaultItemBefore true
      (setCopiedItems (array_of (defaultItem p)) s)
  else if nonempty (items p) && supplied (defaultItem p)
          && isAnimationEnabled p && isShowDefaultItemBefore s then
    (* need animate from defaultItem to items *)
    let _copiedItems := array_of (defaultItem p) ++ _copiedItems in
    startAnimation q _copiedItems _startIndex (Some 100)
      (setCopiedItems _copiedItems s)
  else if nonempty (items p) && isAnimationEnabled p then
    (* show normal animation *)
    let s := setCopiedItems _copiedItems s in
    let s :=
      if onShow p then
        call_onShow (get _copiedItems 0) (Num (startIndex p)) s
      else s in
    if (1 <? length (items p))%nat then
      startAnimation q _copiedItems (Num (startIndex q)) None s
    else s
  else s.

(** The timer callback of [startAnimation] (lines 113-116) followed by
    [beginAnimation] up to [.start(...)]: the handle is nulled and the
    animation is in flight. *)
Definition on_timeout (t : Timer) (s : State) : State :=
  let s := set_animationTimeout None s in
  set_animations
    (animations s ++
     [mkAnimation (timer_props t) (timer_lastItems t) (timer_counter t)]) s.

(** The completion callback of the animation (lines 131-155).  [onShow]
    and [startAnimation] are those of the render that created this
    [beginAnimation], whatever the props have become since. *)
Definition on_animation_end (a : Animation) (s : State) : State :=
  let p := anim_props a in
  let lastItems := anim_lastItems a in
  let counter := anim_counter a in
  let nextIndex :=
    rem (add counter (Num 1)) (Num (Z.of_nat (length lastItems))) in
  let shiftedItems := shifted lastItems in
  let '(shiftedItems, nextIndex, s) :=
    if isShowDefaultItemBefore s then
      (* remove defaultItem from copiedItems *)
      (pop shiftedItems, sub nextIndex (Num 1),
       set_isShowDefaultItemBefore false s)
    else (shiftedItems, nextIndex, s) in
  let s :=
    if onShow p then call_onShow (get shiftedItems 0) nextIndex s else s in
  (* reset animation and shift prefill text array *)
  let s := setCopiedItems shiftedItems s in
  if (1 <? length shiftedItems)%nat then
    startAnimation p shiftedItems (add counter (Num 1)) None s
  else s.

(** [clear] (lines 160-164): the handle itself is left as it is. *)
Definition clear (s : State) : State :=
  match animationTimeout s with
  | Some h => clearTimeout h s
  | None => s
  end.

(** [onStartOver] (lines 166-169): the [init] of the last render, whose
    props are [p]. *)
Definition onStartOver (p : Props) (s : State) : State :=
  init p (clear s).

(** A render with a new item collection and the effect of lines 55-59:
    the cleanup of the previous effect, then the [init] of this render. *)
Definition effect (p : Props) (s : State) : State :=
  init p (clear (rendered p s)).

(** The state after the first render and its effect. *)
Definition mount (p : Props) : State := init p (rendered p initial_state).

(** Lines 179-191: the rendered stack, one keyed child per element of
    [copiedItems.slice(0, 3)]. *)
Definition mapi {A B : Type} (f : A -> nat -> B) (l : list A) : list B :=
  map (fun '(i, a) => f a i) (combine (seq 0 (length l)) l).

Definition render (p : Props) (s : State) : list (nat * Element) :=
  mapi (fun item idx => (idx, renderItem p item))
    (slice (copiedItems s) (Num 0) (Some (Num 3))).

(** The Visible Item: the first element of the Rotation Window. *)
Definition visible (s : State) : option Item := get (copiedItems s) 0.

(** ** The event loop *)

(** What can happen to a mounted carousel: its owner renders it again
    with new props, among them a new item collection, or calls the
    imperative handle; a pending timer fires; an animation in flight
    completes. *)
Inductive Event : Type :=
| ItemsChange (p : Props)
| StartOver
| Clear
| Fire (h : positive)
| Complete (k : nat).

Definition find_timer (h : positive) (s : State) : option Timer :=
  find (fun t => Pos.eqb (timer_id t) h) (timers s).

Fixpoint remove_nth {A : Type} (k : nat) (l : list A) : list A :=
  match k, l with
  | _, [] => []
  | O, _ :: l' => l'
  | S k', x :: l' => x :: remove_nth k' l'
  end.

(** One event, on the props of the last render and the state; [None] when
    the event cannot happen (no such timer, no such animation).  A timer
    that fires leaves the table of the host before its callback runs; a
    completed animation likewise. *)
Definition step (e : Event) (c : Props * State) : option (Props * State) :=
  let '(p, s) := c in
  match e with
  | ItemsChange p' => Some (p', effect p' s)
  | StartOver => Some (p, onStartOver p s)
  | Clear => Some (p, clear s)
  | Fire h =>
      match find_timer h s with
      | Some t => Some (p, on_timeout t (clearTimeout h s))
      | None => None
      end
  | Complete k =>
      match nth_error (animations s) k with
      | Some a =>
          Some (p, on_animation_end a
                     (set_animations (remove_nth k (animations s)) s))
      | None => None
      end
  end.

(** A sequence of events, each of which must be allowed by [ok]. *)
Fixpoint run_where (ok : Event -> State -> bool) (es : list Event)
    (c : Props * State) : option (Props * State) :=
  match es with
  | [] => Some c
  | e :: es' =>
      if ok e (snd c) then
        match step e c with
        | Some c' => run_where ok es' c'
        | None => None
        end
      else None
  end.

Definition run : list Event -> Props * State -> option (Props * State) :=
  run_where (fun _ _ => true).

(** No (re-)initialisation while an animation is in flight. *)
Definition settled (e : Event) (s : State) : bool :=
  match e with
  | ItemsChange _ | StartOver =>
      match animations s with
      | [] => true
      | _ :: _ => false
      end
  | _ => true
  end.

Definition run_settled
  : list Event -> Props * State -> option (Props * State) :=
  run_where settled.

(** One successful advance of the rotation: the timer held in
    [animationTimeout] fires and the animation it starts completes. *)
Definition advance (c : Props * State) : option (Props * State) :=
  match animationTimeout (snd c) with
  | Some h =>
      match step (Fire h) c with
      | Some c1 => step (Complete (length (animations (snd c)))) c1
      | None => None
      end
  | None => None
  end.

Fixpoint advances (n : nat) (c : Props * State) : option (Props * State) :=
  match n with
  | O => Some c
  | S n' =>
      match advance c with
      | Some c' => advances n' c'
      | None => None
      end
  end.

(** What can be seen of the outcome of a run: the window, the
    Was-Showing-Default flag, the counters carried by the pending timers
    and the calls made to [onShow]. *)
Definition observe (r : option (Props * State))
    : option (list Item * bool * list number * list (option Item * number)) :=
  match r with
  | Some (_, s) =>
      Some (copiedItems s, isShowDefaultItemBefore s,
            map timer_counter (timers s), shown s)
  | None => None
  end.

End Carousel.

Arguments Props : clear implicits.
Arguments Timer : clear implicits.
Arguments Animation : clear implicits.
Arguments State : clear implicits.
Arguments Event : clear implicits.

(** ** Predicates on events and states *)

Section Predicates.

Context {Item Element : Type}.
Implicit Types (p : Props Item Element) (s : State Item Element).

(** Every item collection supplied by the events [es] satisfies [P]. *)
Definition event_props (P : Props Item Element -> bool)
    (e : Event Item Element) : bool :=
  match e with
  | ItemsChange p => P p
  | _ => true
  end.

Definition all_props (P : Props Item Element -> bool)
    (es : list (Event Item Element)) : bool :=
  forallb (event_props P) es.

Definition at_most_one_item p : bool := (length (items p) <=? 1)%nat.

Definition animation_disabled p : bool := negb (isAnimationEnabled p).

(** The states a mounted carousel can be in. *)
Definition reachable (c : Props Item Element * State Item Element) : Prop :=
  exists p es, run es (p, mount p) = Some c.

(** Handles are allocated in increasing order. *)
Definition timers_fresh s : Prop :=
  Forall (fun t => (timer_id t < next_timer s)%positive) (timers s) /\
  forall h, animationTimeout s = Some h -> (h < next_timer s)%positive.

(** At most one timer or animation is outstanding, and a pending timer is
    the one held in [animationTimeout]. *)
Definition single_pending s : Prop :=
  (length (timers s) + length (animations s) <= 1)%nat /\
  Forall (fun t => animationTimeout s = Some (timer_id t)) (timers s).

(** Nothing was ever scheduled: no timer, no animation, no handle
    allocated, and animation is disabled. *)
Definition never_armed (c : Props Item Element * State Item Element)
    : Prop :=
  isAnimationEnabled (fst c) = false /\
  timers (snd c) = [] /\
  animations (snd c) = [] /\
  next_timer (snd c) = 1%positive.

(** The timer of the transition from the default item of [p] to its
    single real item: armed by [init] with the default item in front and a
    delay of 100 ms. *)
Definition fallback_timer p (t : Timer Item Element) : Prop :=
  exists d x,
    defaultItem p = Some d /\
    items p = [x] /\
    timer_lastItems t = [d; x] /\
    timer_delay t = 100.

(** With at most one item, whatever is pending belongs to the transition
    out of the default item, which is still flagged. *)
Definition only_fallback (c : Props Item Element * State Item Element)
    : Prop :=
  at_most_one_item (fst c) = true /\
  single_pending (snd c) /\
  (timers (snd c) <> [] \/ animations (snd c) <> [] ->
   isShowDefaultItemBefore (snd c) = true) /\
  Forall (fallback_timer (fst c)) (timers (snd c)) /\
  Forall (fun a => length (anim_lastItems a) = 2%nat) (animations (snd c)).

(** The collection has [n] items and the start index is in range. *)
Definition same_shape (n : nat) p : bool :=
  (length (items p) =? n)%nat && (0 <=? startIndex p)
  && (startIndex p <? Z.of_nat n).

(** A counter the observer may receive for a collection of [n] items. *)
Definition index_in_range (n : nat) (i : number) : Prop :=
  exists z, i = Num z /\ 0 <= z < Z.of_nat n.

(** What a timer or an animation carries when it belongs to a rotation
    over [n] items: a window of [n >= 2] elements and a counter that is a
    natural number; animation was enabled when it was created. *)
Definition sound_snapshot (n : nat) p (w : list Item) (k : number) : Prop :=
  isAnimationEnabled p = true /\
  length w = n /\
  (2 <= n)%nat /\
  exists z, k = Num z /\ 0 <= z.

(** The collection keeps [n] items and an in-range start index, and every
    counter sent so far is in range. *)
Definition counters_in_range (n : nat)
    (c : Props Item Element * State Item Element) : Prop :=
  same_shape n (fst c) = true /\
  isShowDefaultItemBefore (snd c) = false /\
  Forall (fun t => sound_snapshot n (timer_props t) (timer_lastItems t)
                     (timer_counter t)) (timers (snd c)) /\
  Forall (fun a => sound_snapshot n (anim_props a) (anim_lastItems a)
                     (anim_counter a)) (animations (snd c)) /\
  Forall (fun x => index_in_range n (snd x)) (shown (snd c)).

(** The rotation is armed on window [w] with counter [c]: the window is
    displayed, no default item is pending, and the timer held in
    [animationTimeout] carries [w] and [c]; its callback is the one created
    by the render with the props [p]. *)
Definition armed p (w : list Item) (c : Z) s : Prop :=
  timers_fresh s /\
  isShowDefaultItemBefore s = false /\
  copiedItems s = w /\
  exists h t,
    animationTimeout s = Some h /\
    find_timer h s = Some t /\
    timer_props t = p /\
    timer_lastItems t = w /\
    timer_counter t = Num c.

(** [w] is the collection [l] rotated to the left by fewer than
    [length l] places. *)
Definition is_rotation (l w : list Item) : Prop :=
  exists m, (m < length l)%nat /\ w = shift_left m l.

(** The props stay those of the mount: no new collection is supplied. *)
Definition no_items_change (es : list (Event Item Element)) : bool :=
  all_props (fun _ => false) es.

(** Neither a new collection nor [clear]. *)
Definition keeps_going (e : Event Item Element) : bool :=
  match e with
  | ItemsChange _ | Clear => false
  | _ => true
  end.

(** The props are [p], no default item is flagged, and the window and
    every snapshot carried by a timer or an animation is a rotation of the
    items of [p] (the window may still be empty). *)
Definition rotations_only p
    (c : Props Item Element * State Item Element) : Prop :=
  fst c = p /\
  isShowDefaultItemBefore (snd c) = false /\
  (copiedItems (snd c) = [] \/ is_rotation (items p) (copiedItems (snd c))) /\
  Forall (fun t => is_rotation (items p) (timer_lastItems t))
    (timers (snd c)) /\
  Forall (fun a => is_rotation (items p) (anim_lastItems a))
    (animations (snd c)).

(** The window [w] is the rotation of [l] by the counter [k], a natural
    number not above [b]. *)
Definition indexed_snapshot (l : list Item) (b : Z) (w : list Item)
    (k : number) : Prop :=
  exists z,
    k = Num z /\ 0 <= z <= b /\
    w = shift_left (Z.to_nat (z mod Z.of_nat (length l))) l.

(** The observer was told the item [x] together with its index in [l]. *)
Definition indexed_notification (l : list Item)
    (n : option Item * number) : Prop :=
  exists z,
    snd n = Num z /\ 0 <= z < Z.of_nat (length l) /\
    fst n = nth_error l (Z.to_nat z).

(** The props are [p], no default item is flagged, every snapshot is the
    rotation by its counter, no counter is above [b], and every
    notification so far paired an item with its index. *)
Definition notifications_indexed p (b : Z)
    (c : Props Item Element * State Item Element) : Prop :=
  fst c = p /\
  isShowDefaultItemBefore (snd c) = false /\
  Forall (fun t => indexed_snapshot (items p) b (timer_lastItems t)
                     (timer_counter t)) (timers (snd c)) /\
  Forall (fun a => indexed_snapshot (items p) b (anim_lastItems a)
                     (anim_counter a)) (animations (snd c)) /\
  Forall (indexed_notification (items p)) (shown (snd c)).

(** The counter carried by the timer after [j] advances of a rotation
    armed with the counter [k]. *)
Definition counter_after (j : nat) (k : Z) : Z :=
  Nat.iter j (fun z => round (z + 1)) k.

(** The rotation of [p] is running: the memoized [startAnimation] is the
    one of [p], exactly one timer or animation is outstanding, it was
    created with the props [p] on a window as long as the collection, and
    a pending timer is the one held in [animationTimeout] and waits
    [displayTime]. *)
Definition alive p (c : Props Item Element * State Item Element) : Prop :=
  fst c = p /\
  isShowDefaultItemBefore (snd c) = false /\
  closure (snd c) = Some p /\
  (length (timers (snd c)) + length (animations (snd c)) = 1)%nat /\
  Forall (fun t => timer_props t = p /\
                   length (timer_lastItems t) = length (items p) /\
                   timer_delay t = displayTime p /\
                   animationTimeout (snd c) = Some (timer_id t))
    (timers (snd c)) /\
  Forall (fun a => anim_props a = p /\
                   length (anim_lastItems a) = length (items p))
    (animations (snd c)).

End Predicates.

(** ** Concrete carousels *)

Module Examples.

Local Open Scope string_scope.

(** A carousel of strings rendered as themselves, with an observer, a
    dwell time of 3000 ms and slots of height 40. *)
Definition props (l : list string) (d : option string) (enabled : bool)
    (k : Z) : Props string string :=
  {| items := l;
     renderItem := fun x => x;
     viewHeight := 40;
     defaultItem := d;
     onShow := true;
     displayTime := 3000;
     isAnimationEnabled := enabled;
     animationDuration := 250;
     startIndex := k |}.

(** The same carousel without an observer. *)
Definition unobserved (p : Props string string) : Props string string :=
  {| items := items p;
     renderItem := renderItem p;
     viewHeight := viewHeight p;
     defaultItem := defaultItem p;
     onShow := false;
     displayTime := displayTime p;
     isAnimationEnabled := isAnimationEnabled p;
     animationDuration := animationDuration p;
     startIndex := startIndex p |}.

Definition ABC : list string := ["A"; "B"; "C"].
Definition AB : list string := ["A"; "B"].

End Examples.

(** * Properties *)

(** ** Arithmetic of the JavaScript remainder *)

Lemma rem_bounds (k n : Z) : 0 < n -> - n < Z.rem k n < n.
Proof.
  intros Hn. Z.to_euclidean_division_equations. lia.
Qed.

Lemma rem_cases (k n : Z) :
  0 < n ->
  (0 <= Z.rem k n /\ Z.rem k n = k mod n) \/
  (Z.rem k n < 0 /\ n + Z.rem k n = k mod n).
Proof.
  intros Hn.
  assert (Hq := Z.quot_rem' k n).
  assert (Hb := rem_bounds k n Hn).
  destruct (Z.lt_ge_cases (Z.rem k n) 0) as [Hneg | Hpos].
  - right. split; [assumption |].
    apply (Z.mod_unique_pos k n (Z.quot k n - 1)); lia.
  - left. split; [assumption |].
    apply (Z.mod_unique_pos k n (Z.quot k n)); lia.
Qed.

Lemma rem_wrap (k n : Z) :
  0 < n -> Z.rem (Z.rem k n + n) n = k mod n.
Proof.
  intros Hn.
  assert (Hm := Z.mod_pos_bound k n Hn).
  destruct (rem_cases k n Hn) as [[Hpos He] | [Hneg He]].
  - replace (Z.rem k n + n) with (Z.rem k n + 1 * n) by ring.
    rewrite Z.rem_add by nia.
    rewrite Z.rem_small by lia. exact He.
  - replace (Z.rem k n + n) with (k mod n) by lia.
    apply Z.rem_small. lia.
Qed.

(** ** Rounding to a double *)

Lemma round_exact (z : Z) : - 2 ^ 53 <= z <= 2 ^ 53 -> round z = z.
Proof.
  intros Hz. unfold round.
  destruct (Z.leb_spec (Z.log2 (Z.abs z) - 52) 0) as [_ | He];
    [reflexivity |].
  assert (Hpos : 0 < Z.abs z).
  { destruct (Z.eq_dec (Z.abs z) 0) as [E | E];
      [rewrite E in He; simpl in He; lia | lia]. }
  pose proof (Z.log2_spec _ Hpos) as [Hlo _].
  assert (Hp : 2 ^ 53 <= 2 ^ Z.log2 (Z.abs z))
    by (apply Z.pow_le_mono_r; lia).
  assert (E : z = 2 ^ 53 \/ z = - 2 ^ 53) by lia.
  destruct E as [-> | ->]; vm_compute; reflexivity.
Qed.

Lemma round_nonneg (z : Z) : 0 <= z -> 0 <= round z.
Proof.
  intros Hz. unfold round.
  destruct (Z.leb_spec (Z.log2 (Z.abs z) - 52) 0) as [_ | He];
    [exact Hz |].
  set (ulp := 2 ^ (Z.log2 (Z.abs z) - 52)).
  assert (Hu : 0 < ulp) by (apply Z.pow_pos_nonneg; lia).
  assert (Hq : 0 <= Z.abs z / ulp) by (apply Z.div_pos; lia).
  assert (Hs : 0 <= Z.sgn z) by (apply Z.sgn_nonneg; exact Hz).
  apply Z.mul_nonneg_nonneg; [exact Hs |].
  apply Z.mul_nonneg_nonneg; [| lia].
  destruct (2 * (Z.abs z mod ulp) <? ulp); [exact Hq |].
  destruct (ulp <? 2 * (Z.abs z mod ulp)); [lia |].
  destruct (Z.even (Z.abs z / ulp)); lia.
Qed.

(** An array is short enough for sums of its indices to be exact. *)
Lemma max_length_exact (n : Z) : n <= max_length -> 2 * n + 2 <= 2 ^ 53.
Proof. unfold max_length. lia. Qed.

Lemma counter_after_succ (j : nat) (k : Z) :
  counter_after (S j) k = round (counter_after j k + 1).
Proof. reflexivity. Qed.

Lemma counter_after_nonneg (j : nat) (k : Z) :
  0 <= k -> 0 <= counter_after j k.
Proof.
  intros Hk. induction j as [| j IH]; [exact Hk |].
  rewrite counter_after_succ. apply round_nonneg. lia.
Qed.

(** Below [2 ^ 53] the counter counts the advances. *)
Lemma counter_after_exact (j : nat) (k : Z) :
  0 <= k -> k + Z.of_nat j <= 2 ^ 53 ->
  counter_after j k = k + Z.of_nat j.
Proof.
  intros Hk. induction j as [| j IH]; intros Hj.
  - simpl. lia.
  - rewrite counter_after_succ, IH by lia.
    rewrite round_exact by lia. lia.
Qed.

(** ** [slice] and the Rotation Window *)

Section Rotation.

Context {A : Type}.
Implicit Types l : list A.

Lemma slice_from l (k : Z) :
  0 <= k <= Z.of_nat (length l) ->
  slice l (Num k) None = skipn (Z.to_nat k) l.
Proof.
  intros Hk. unfold slice, relative, to_integer.
  destruct (Z.ltb_spec k 0) as [? | _]; [lia |].
  rewrite Z.min_l by lia.
  apply firstn_all2. rewrite length_skipn. lia.
Qed.

Lemma slice_from_end l (k : Z) :
  - Z.of_nat (length l) <= k < 0 ->
  slice l (Num k) None = skipn (Z.to_nat (Z.of_nat (length l) + k)) l.
Proof.
  intros Hk. unfold slice, relative, to_integer.
  destruct (Z.ltb_spec k 0) as [_ | ?]; [| lia].
  rewrite Z.max_l by lia.
  apply firstn_all2. rewrite length_skipn. lia.
Qed.

Lemma slice_upto l (k : Z) :
  0 <= k <= Z.of_nat (length l) ->
  slice l (Num 0) (Some (Num k)) = firstn (Z.to_nat k) l.
Proof.
  intros Hk. unfold slice, relative, to_integer. simpl.
  destruct (Z.ltb_spec k 0) as [? | _]; [lia |].
  rewrite !Z.min_l by lia.
  rewrite Z.sub_0_r. reflexivity.
Qed.

Lemma slice_upto_end l (k : Z) :
  - Z.of_nat (length l) <= k < 0 ->
  slice l (Num 0) (Some (Num k))
  = firstn (Z.to_nat (Z.of_nat (length l) + k)) l.
Proof.
  intros Hk. unfold slice, relative, to_integer. simpl.
  destruct (Z.ltb_spec k 0) as [_ | ?]; [| lia].
  rewrite Z.max_l, Z.min_l by lia.
  rewrite Z.sub_0_r. reflexivity.
Qed.

Lemma shift_left_perm m l : Permutation (shift_left m l) l.
Proof.
  unfold shift_left.
  rewrite Permutation_app_comm, firstn_skipn. reflexivity.
Qed.

Lemma shift_left_length m l : length (shift_left m l) = length l.
Proof.
  unfold shift_left.
  rewrite length_app, Nat.add_comm, <- length_app, firstn_skipn.
  reflexivity.
Qed.

Lemma shift_left_0 l : shift_left 0 l = l.
Proof. unfold shift_left. simpl. apply app_nil_r. Qed.

Lemma shift_left_all l : shift_left (length l) l = l.
Proof.
  unfold shift_left. rewrite skipn_all, firstn_all. reflexivity.
Qed.

Lemma shift_left_hd m l :
  (m < length l)%nat -> nth_error (shift_left m l) 0 = nth_error l m.
Proof.
  intros Hm. unfold shift_left.
  rewrite nth_error_app1 by (rewrite length_skipn; lia).
  rewrite nth_error_skipn, Nat.add_0_r. reflexivity.
Qed.

(** On a non-empty array the window of [init] is the cyclic shift by
    [startIndex mod length], also when [startIndex % length] is negative
    and both slices count from the end. *)
Lemma rotation_shift l (k : Z) :
  l <> [] ->
  rotation l k = shift_left (Z.to_nat (k mod Z.of_nat (length l))) l.
Proof.
  intros Hl.
  assert (Hn : 0 < Z.of_nat (length l)) by (destruct l; simpl; [easy | lia]).
  unfold rotation, start_index, rem.
  destruct (Z.eqb_spec (Z.of_nat (length l)) 0) as [? | _]; [lia |].
  pose proof (rem_bounds k _ Hn) as Hb.
  destruct (rem_cases k _ Hn) as [[Hpos He] | [Hneg He]].
  - rewrite slice_from, slice_upto by lia. rewrite He. reflexivity.
  - rewrite slice_from_end, slice_upto_end by lia. rewrite He. reflexivity.
Qed.

Lemma rotation_nil (k : Z) : rotation (@nil A) k = [].
Proof. reflexivity. Qed.

Lemma rotation_length l (k : Z) : length (rotation l k) = length l.
Proof.
  destruct l as [| a l']; [reflexivity |].
  rewrite rotation_shift by easy. apply shift_left_length.
Qed.

Lemma shifted_cons (a : A) l : shifted (a :: l) = l ++ [a].
Proof.
  unfold shifted.
  rewrite slice_from, slice_upto by (simpl length; lia).
  reflexivity.
Qed.

Lemma shift_left_app (l1 l2 : list A) :
  shift_left (length l1) (l1 ++ l2) = l2 ++ l1.
Proof.
  unfold shift_left.
  rewrite skipn_app, firstn_app, Nat.sub_diag, skipn_all, firstn_all.
  simpl. rewrite app_nil_r. reflexivity.
Qed.

Lemma shifted_shift_left m l :
  (m < length l)%nat -> shifted (shift_left m l) = shift_left (S m) l.
Proof.
  intros Hm.
  destruct (nth_error l m) as [x |] eqn:Hx;
    [| apply nth_error_None in Hx; lia].
  destruct (nth_error_split l m Hx) as (l1 & l2 & -> & <-).
  rewrite shift_left_app. simpl. rewrite shifted_cons.
  replace (S (length l1)) with (length (l1 ++ [x]))
    by (rewrite length_app; simpl; lia).
  replace (l1 ++ x :: l2) with ((l1 ++ [x]) ++ l2)
    by (rewrite <- app_assoc; reflexivity).
  rewrite shift_left_app, app_assoc. reflexivity.
Qed.

(** [k] left rotations by one are the cyclic shift by [k]. *)
Lemma iter_shifted (k : nat) l :
  (k <= length l)%nat -> Nat.iter k shifted l = shift_left k l.
Proof.
  induction k as [| k IH]; intros Hk; simpl.
  - symmetry. apply shift_left_0.
  - rewrite IH by lia. apply shifted_shift_left. lia.
Qed.

End Rotation.

(** ** The rendered stack *)

Lemma mapi_fst_snd {A B : Type} (f : A -> B) (l : list A) :
  map fst (mapi (fun a i => (i, f a)) l) = seq 0 (length l) /\
  map snd (mapi (fun a i => (i, f a)) l) = map f l.
Proof.
  unfold mapi. generalize 0%nat as start.
  induction l as [| a l IH]; intros start; simpl; [easy |].
  destruct (IH (S start)) as [IH1 IH2].
  rewrite IH1, IH2. easy.
Qed.

Lemma slice_first_three {A : Type} (l : list A) :
  slice l (Num 0) (Some (Num 3)) = firstn 3 l.
Proof.
  unfold slice, relative, to_integer.
  change (0 <? 0) with false. change (3 <? 0) with false.
  cbv iota. rewrite (Z.min_l 0) by lia. rewrite Z.sub_0_r.
  simpl skipn.
  destruct (Z.le_gt_cases 3 (Z.of_nat (length l))) as [Hle | Hgt].
  - rewrite Z.min_l by lia. reflexivity.
  - rewrite Z.min_r by lia.
    rewrite (firstn_all2 (n := 3)) by lia.
    apply firstn_all2. lia.
Qed.


(** ** The operations, field by field *)

Section Operations.

Context {Item Element : Type}.
Implicit Types (p : Props Item Element) (s : State Item Element).
Implicit Types (t : Timer Item Element) (a : Animation Item Element).

(** The memoized [startAnimation] has the dependencies of the render that
    asks for it. *)
Lemma same_dependencies_spec q p :
  same_dependencies q p = true ->
  displayTime q = displayTime p /\
  isAnimationEnabled q = isAnimationEnabled p /\
  startIndex q = startIndex p.
Proof.
  unfold same_dependencies. intros H.
  apply andb_prop in H as [H H3]. apply andb_prop in H as [H1 H2].
  apply Z.eqb_eq in H1, H3. apply Bool.eqb_prop in H2. auto.
Qed.

Lemma same_dependencies_refl p : same_dependencies p p = true.
Proof.
  unfold same_dependencies.
  rewrite !Z.eqb_refl, Bool.eqb_reflx. reflexivity.
Qed.

Lemma useCallback_dependencies p s :
  displayTime (useCallback p s) = displayTime p /\
  isAnimationEnabled (useCallback p s) = isAnimationEnabled p /\
  startIndex (useCallback p s) = startIndex p.
Proof.
  unfold useCallback.
  destruct (closure s) as [q |]; [| auto].
  destruct (same_dependencies q p) eqn:E; [| auto].
  apply same_dependencies_spec. exact E.
Qed.

Lemma useCallback_enabled p s :
  isAnimationEnabled p = true -> isAnimationEnabled (useCallback p s) = true.
Proof.
  intros He. destruct (useCallback_dependencies p s) as (_ & -> & _).
  exact He.
Qed.

(** A carousel whose last render had the props [p] and created
    [startAnimation] keeps it as long as the props are [p]. *)
Lemma useCallback_own p s : closure s = Some p -> useCallback p s = p.
Proof.
  intros H. unfold useCallback. rewrite H, same_dependencies_refl.
  reflexivity.
Qed.

Lemma useCallback_rendered p s :
  useCallback p (rendered p s) = useCallback p s.
Proof.
  unfold rendered, useCallback at 1. simpl.
  destruct (useCallback_dependencies p s) as (Hd & He & Hk).
  unfold same_dependencies. rewrite Hd, He, Hk.
  rewrite !Z.eqb_refl, Bool.eqb_reflx. reflexivity.
Qed.

Lemma reset_timeout_fields s :
  copiedItems (reset_timeout s) = copiedItems s /\
  isShowDefaultItemBefore (reset_timeout s) = isShowDefaultItemBefore s /\
  animations (reset_timeout s) = animations s /\
  next_timer (reset_timeout s) = next_timer s /\
  shown (reset_timeout s) = shown s /\
  animationTimeout (reset_timeout s) = None /\
  incl (timers (reset_timeout s)) (timers s).
Proof.
  unfold reset_timeout.
  destruct (animationTimeout s) as [h |] eqn:Hh; simpl;
    repeat split; auto using incl_refl, incl_filter.
Qed.

(** Only a render touches the memoized [startAnimation]. *)
Lemma reset_timeout_closure s : closure (reset_timeout s) = closure s.
Proof.
  unfold reset_timeout. destruct (animationTimeout s); reflexivity.
Qed.

Lemma clear_closure s : closure (clear s) = closure s.
Proof.
  unfold clear. destruct (animationTimeout s); reflexivity.
Qed.

Lemma useCallback_clear p s : useCallback p (clear s) = useCallback p s.
Proof. unfold useCallback. rewrite clear_closure. reflexivity. Qed.

Lemma clear_fields s :
  copiedItems (clear s) = copiedItems s /\
  isShowDefaultItemBefore (clear s) = isShowDefaultItemBefore s /\
  animations (clear s) = animations s /\
  next_timer (clear s) = next_timer s /\
  shown (clear s) = shown s /\
  animationTimeout (clear s) = animationTimeout s /\
  incl (timers (clear s)) (timers s).
Proof.
  unfold clear.
  destruct (animationTimeout s) as [h |] eqn:Hh; simpl;
    repeat split; auto using incl_refl, incl_filter.
Qed.

(** Once the pending timer is the one in [animationTimeout], clearing it
    leaves no timer pending. *)
Lemma held_timers_filter (h : positive) (ts : list (Timer Item Element)) :
  Forall (fun t => Some h = Some (timer_id t)) ts ->
  filter (fun t => negb (Pos.eqb (timer_id t) h)) ts = [].
Proof.
  induction 1 as [| t ts Ht _ IH]; simpl; [reflexivity |].
  injection Ht as ->. rewrite Pos.eqb_refl. exact IH.
Qed.

Lemma clear_no_timer s :
  Forall (fun t => animationTimeout s = Some (timer_id t)) (timers s) ->
  timers (clear s) = [].
Proof.
  unfold clear. intros Hheld.
  destruct (animationTimeout s) as [h |] eqn:Hh; simpl.
  - apply held_timers_filter. assumption.
  - destruct Hheld as [| t ts Ht _]; [reflexivity | discriminate].
Qed.

Lemma reset_timeout_no_timer s :
  Forall (fun t => animationTimeout s = Some (timer_id t)) (timers s) ->
  timers (reset_timeout s) = [].
Proof.
  unfold reset_timeout. intros Hheld.
  destruct (animationTimeout s) as [h |] eqn:Hh; simpl.
  - apply held_timers_filter. assumption.
  - destruct Hheld as [| t ts Ht _]; [reflexivity | discriminate].
Qed.

Lemma reset_timeout_clear s : reset_timeout (clear s) = reset_timeout s.
Proof.
  unfold reset_timeout, clear, clearTimeout.
  destruct (animationTimeout s) as [h |] eqn:Hh; simpl; rewrite ?Hh; simpl;
    [| reflexivity].
  unfold set_animationTimeout, set_timers. simpl. f_equal.
  induction (timers s) as [| t ts IH]; simpl; [reflexivity |].
  destruct (Pos.eqb (timer_id t) h) eqn:Ht; simpl; rewrite ?Ht; simpl;
    congruence.
Qed.

(** The cleanup that precedes [init] is absorbed by its first lines. *)
Lemma init_clear p s : init p (clear s) = init p s.
Proof.
  unfold init. rewrite reset_timeout_clear, useCallback_clear. reflexivity.
Qed.

(** [startAnimation] either does nothing or registers exactly one timer
    under the next handle and stores that handle. *)
Lemma startAnimation_armed p (w : list Item) c f s :
  isAnimationEnabled p = true -> (2 <= length w)%nat ->
  startAnimation p w c f s =
  {| copiedItems := copiedItems s;
     animationTimeout := Some (next_timer s);
     isShowDefaultItemBefore := isShowDefaultItemBefore s;
     closure := closure s;
     timers := timers s ++ [mkTimer (next_timer s) p w c (delay_of p f)];
     animations := animations s;
     next_timer := Pos.succ (next_timer s);
     shown := shown s |}.
Proof.
  intros He Hw. unfold startAnimation. rewrite He. simpl.
  destruct (Nat.leb_spec (length w) 1) as [? | _]; [lia |].
  reflexivity.
Qed.

(** The four ways through [init]. *)
Lemma nonempty_true (l : list Item) : l <> [] -> nonempty l = true.
Proof. destruct l; [easy | reflexivity]. Qed.

Lemma init_default p s d :
  items p = [] -> defaultItem p = Some d ->
  init p s
  = set_isShowDefaultItemBefore true (setCopiedItems [d] (reset_timeout s)).
Proof.
  intros Hi Hd. unfold init. rewrite Hi, Hd. reflexivity.
Qed.

Lemma init_fallback p s d :
  items p <> [] -> defaultItem p = Some d ->
  isAnimationEnabled p = true -> isShowDefaultItemBefore s = true ->
  init p s
  = startAnimation (useCallback p s)
      (d :: rotation (items p) (startIndex p))
      (start_index (items p) (startIndex p)) (Some 100)
      (setCopiedItems (d :: rotation (items p) (startIndex p))
         (reset_timeout s)).
Proof.
  intros Hi Hd He Hf. unfold init.
  destruct (reset_timeout_fields s) as (_ & -> & _).
  rewrite (nonempty_true _ Hi), Hd, He, Hf. reflexivity.
Qed.

Lemma init_normal p s :
  items p <> [] -> isAnimationEnabled p = true ->
  defaultItem p = None \/ isShowDefaultItemBefore s = false ->
  init p s
  = let w := rotation (items p) (startIndex p) in
    let s1 := setCopiedItems w (reset_timeout s) in
    let s2 :=
      if onShow p then call_onShow (get w 0) (Num (startIndex p)) s1
      else s1 in
    if (1 <? length (items p))%nat then
      startAnimation (useCallback p s) w (Num (startIndex p)) None s2
    else s2.
Proof.
  intros Hi He Hf. unfold init.
  destruct (reset_timeout_fields s) as (_ & -> & _).
  destruct (useCallback_dependencies p s) as (_ & _ & ->).
  rewrite (nonempty_true _ Hi), He.
  destruct Hf as [-> | ->]; simpl; rewrite ?andb_false_r; reflexivity.
Qed.

Lemma init_nothing p s :
  (items p <> [] /\ isAnimationEnabled p = false) \/
  (items p = [] /\ defaultItem p = None) ->
  init p s = reset_timeout s.
Proof.
  intros [[Hi He] | [Hi Hd]]; unfold init.
  - rewrite (nonempty_true _ Hi), He. simpl.
    rewrite ?andb_false_r. reflexivity.
  - rewrite Hi, Hd. reflexivity.
Qed.

(** With animation disabled [init] never reaches [setTimeout]. *)
Lemma init_disabled_timers p s :
  isAnimationEnabled p = false ->
  timers (init p s) = timers (reset_timeout s) /\
  animations (init p s) = animations s /\
  next_timer (init p s) = next_timer s.
Proof.
  intros He.
  destruct (reset_timeout_fields s) as (_ & _ & Ha & Hn & _).
  destruct (items p) as [| x l] eqn:Hi.
  - destruct (defaultItem p) as [d |] eqn:Hd.
    + rewrite (init_default p s d Hi Hd). simpl. auto.
    + rewrite init_nothing by auto. auto.
  - rewrite init_nothing; [auto |].
    left. split; [congruence | assumption].
Qed.

(** [init] never clears the Was-Showing-Default flag, and sets it only
    for an empty collection. *)
Lemma init_flag p s :
  items p <> [] ->
  isShowDefaultItemBefore (init p s) = isShowDefaultItemBefore s.
Proof.
  intros Hi. unfold init.
  destruct (reset_timeout_fields s) as (_ & Hf & _).
  rewrite (nonempty_true _ Hi). simpl.
  unfold startAnimation, setTimeout.
  repeat match goal with
         | |- context [if ?b then _ else _] => destruct b; simpl
         end; exact Hf.
Qed.

(** The callbacks leave the memoized [startAnimation] alone. *)
Lemma startAnimation_closure p (w : list Item) k f s :
  closure (startAnimation p w k f s) = closure s.
Proof.
  unfold startAnimation.
  destruct (negb (isAnimationEnabled p) || (length w <=? 1)%nat);
    reflexivity.
Qed.

Lemma init_closure p s : closure (init p s) = closure s.
Proof.
  unfold init.
  repeat match goal with
         | |- context [if ?b then _ else _] => destruct b
         end;
    rewrite ?startAnimation_closure; simpl; apply reset_timeout_closure.
Qed.

Lemma on_animation_end_closure a s :
  closure (on_animation_end a s) = closure s.
Proof.
  unfold on_animation_end.
  repeat match goal with
         | |- context [if ?b then _ else _] => destruct b
         end;
    rewrite ?startAnimation_closure; reflexivity.
Qed.

End Operations.

(** ** Runs and invariants *)

Section Runs.

Context {Item Element : Type}.
Implicit Types (p : Props Item Element) (s : State Item Element).
Implicit Types (c : Props Item Element * State Item Element).
Implicit Types (e : Event Item Element) (es : list (Event Item Element)).

(** A property kept by every allowed step holds at the end of a run. *)
Lemma run_where_invariant
    (ok : Event Item Element -> State Item Element -> bool)
    (I : Props Item Element * State Item Element -> Prop) :
  (forall e c c',
      ok e (snd c) = true -> I c -> step e c = Some c' -> I c') ->
  forall es c c', I c -> run_where ok es c = Some c' -> I c'.
Proof.
  intros Hstep es.
  induction es as [| e es IH]; intros c c' Hc Hrun; simpl in Hrun.
  - injection Hrun as <-. exact Hc.
  - destruct (ok e (snd c)) eqn:Hok; [| discriminate].
    destruct (step e c) as [c1 |] eqn:Hs; [| discriminate].
    eapply IH; [| exact Hrun]. eapply Hstep; eassumption.
Qed.

(** Restricting the events of a run by a test on the events alone. *)
Lemma run_where_and ok (Q : Event Item Element -> bool) es c c' :
  run_where ok es c = Some c' -> forallb Q es = true ->
  run_where (fun e s => ok e s && Q e) es c = Some c'.
Proof.
  revert c. induction es as [| e es IH]; intros c Hrun HQ; simpl in *.
  - exact Hrun.
  - apply andb_prop in HQ as [HQe HQes]. rewrite HQe, andb_true_r.
    destruct (ok e (snd c)); [| discriminate].
    destruct (step e c) as [c1 |]; [| discriminate].
    apply IH; assumption.
Qed.

(** *** Handles are fresh *)

Lemma fresh_weaken (n : positive) (ts : list (Timer Item Element)) :
  Forall (fun t => (timer_id t < n)%positive) ts ->
  Forall (fun t => (timer_id t < Pos.succ n)%positive) ts.
Proof.
  apply Forall_impl. intros t Ht. lia.
Qed.

Lemma fresh_filter (f : Timer Item Element -> bool) (n : positive)
    (ts : list (Timer Item Element)) :
  Forall (fun t => (timer_id t < n)%positive) ts ->
  Forall (fun t => (timer_id t < n)%positive) (filter f ts).
Proof.
  intros H. apply Forall_forall. intros t Ht.
  apply filter_In in Ht as [Ht _].
  rewrite Forall_forall in H. auto.
Qed.

Lemma startAnimation_fresh p (w : list Item) k f s :
  timers_fresh s -> timers_fresh (startAnimation p w k f s).
Proof.
  intros [Ht Hh]. unfold startAnimation.
  destruct (negb (isAnimationEnabled p) || (length w <=? 1)%nat);
    [split; assumption |].
  split; simpl.
  - apply Forall_app. split; [apply fresh_weaken; assumption |].
    constructor; [simpl; lia | constructor].
  - intros h [= <-]. lia.
Qed.

Lemma reset_timeout_fresh s : timers_fresh s -> timers_fresh (reset_timeout s).
Proof.
  intros [Ht Hh]. unfold reset_timeout.
  destruct (animationTimeout s) as [h |] eqn:E;
    [| split; [assumption | intros h0 E0; congruence]].
  split; simpl; [apply fresh_filter; assumption | discriminate].
Qed.

Lemma clear_fresh s : timers_fresh s -> timers_fresh (clear s).
Proof.
  intros [Ht Hh]. unfold clear.
  destruct (animationTimeout s) as [h |] eqn:E;
    [| split; [assumption | intros h0 E0; congruence]].
  split; simpl; [apply fresh_filter; assumption |].
  intros h0 E0. apply Hh. congruence.
Qed.

Lemma init_fresh p s : timers_fresh s -> timers_fresh (init p s).
Proof.
  intros H. apply reset_timeout_fresh in H. unfold init.
  repeat match goal with
         | |- context [if ?b then _ else _] => destruct b
         end;
    try apply startAnimation_fresh; exact H.
Qed.

Lemma on_animation_end_fresh (a : Animation Item Element) s :
  timers_fresh s -> timers_fresh (on_animation_end a s).
Proof.
  intros H. unfold on_animation_end.
  repeat match goal with
         | |- context [if ?b then _ else _] => destruct b
         end;
    try apply startAnimation_fresh; exact H.
Qed.

Lemma step_fresh e c c' :
  timers_fresh (snd c) -> step e c = Some c' -> timers_fresh (snd c').
Proof.
  destruct c as [p s]. simpl. intros H Hs.
  destruct e as [p' | | | h | k]; simpl in Hs.
  - injection Hs as <-. simpl. apply init_fresh, clear_fresh, H.
  - injection Hs as <-. simpl. apply init_fresh, clear_fresh, H.
  - injection Hs as <-. simpl. apply clear_fresh, H.
  - destruct (find_timer h s) as [t |]; [| discriminate].
    injection Hs as <-. simpl. destruct H as [Ht Hh].
    split; simpl; [apply fresh_filter; assumption | discriminate].
  - destruct (nth_error (animations s) k) as [a |]; [| discriminate].
    injection Hs as <-. simpl. apply on_animation_end_fresh.
    exact H.
Qed.

Lemma mount_fresh p : timers_fresh (mount p).
Proof.
  apply init_fresh. split; simpl; [constructor | discriminate].
Qed.

Lemma reachable_fresh c : reachable c -> timers_fresh (snd c).
Proof.
  intros (p & es & Hrun).
  apply (run_where_invariant (fun _ _ => true)
           (fun c => timers_fresh (snd c))) with (es := es) (c := (p, mount p)).
  - intros e c1 c2 _. apply step_fresh.
  - apply mount_fresh.
  - exact Hrun.
Qed.

(** *** The memoized [startAnimation] follows the renders *)

Lemma useCallback_same p s : same_dependencies (useCallback p s) p = true.
Proof.
  destruct (useCallback_dependencies p s) as (Hd & He & Hk).
  unfold same_dependencies. rewrite Hd, He, Hk.
  rewrite !Z.eqb_refl, Bool.eqb_reflx. reflexivity.
Qed.

(** In every state a mounted carousel can be in, React holds a
    [startAnimation], and its dependencies are those of the last render:
    [startOver] arms the timer with it. *)
Lemma reachable_closure c :
  reachable c ->
  exists q,
    closure (snd c) = Some q /\ same_dependencies q (fst c) = true /\
    useCallback (fst c) (snd c) = q.
Proof.
  intros (p & es & Hrun).
  assert (H : exists q, closure (snd c) = Some q /\
                        same_dependencies q (fst c) = true).
  { apply (run_where_invariant (fun _ _ => true)
             (fun c => exists q, closure (snd c) = Some q /\
                                 same_dependencies q (fst c) = true))
      with (es := es) (c := (p, mount p)) (3 := Hrun).
    - intros e [p1 s1] c2 _ (q & Hq & Hsame) Hs. simpl in *.
      destruct e as [p' | | | h | k]; simpl in Hs.
      + injection Hs as <-. simpl. unfold effect.
        rewrite init_closure, clear_closure. simpl.
        eexists. split; [reflexivity | apply useCallback_same].
      + injection Hs as <-. simpl. unfold onStartOver.
        rewrite init_closure, clear_closure. eauto.
      + injection Hs as <-. simpl. rewrite clear_closure. eauto.
      + destruct (find_timer h s1); [| discriminate].
        injection Hs as <-. simpl. eauto.
      + destruct (nth_error (animations s1) k); [| discriminate].
        injection Hs as <-. simpl. rewrite on_animation_end_closure.
        simpl. eauto.
    - simpl. unfold mount. rewrite init_closure. simpl.
      eexists. split; [reflexivity | apply useCallback_same]. }
  destruct H as (q & Hq & Hsame). exists q.
  split; [exact Hq |]. split; [exact Hsame |].
  unfold useCallback. rewrite Hq, Hsame. reflexivity.
Qed.

End Runs.

(** ** At most one pending timer *)

Section SinglePending.

Context {Item Element : Type}.
Implicit Types (p : Props Item Element) (s : State Item Element).
Implicit Types (c : Props Item Element * State Item Element).
Implicit Types (e : Event Item Element) (es : list (Event Item Element)).


Lemma idle_single s :
  timers s = [] -> animations s = [] -> single_pending s.
Proof.
  intros Ht Ha. unfold single_pending. rewrite Ht, Ha.
  split; [simpl; lia | constructor].
Qed.

Lemma startAnimation_single p (w : list Item) k f s :
  timers s = [] -> animations s = [] ->
  single_pending (startAnimation p w k f s).
Proof.
  intros Ht Ha. unfold startAnimation.
  destruct (negb (isAnimationEnabled p) || (length w <=? 1)%nat);
    [apply idle_single; assumption |].
  unfold single_pending. simpl. rewrite Ht, Ha. simpl.
  split; [lia | repeat constructor].
Qed.

Lemma init_single p s :
  single_pending s -> animations s = [] -> single_pending (init p s).
Proof.
  intros [_ Hheld] Ha.
  pose proof (reset_timeout_no_timer s Hheld) as Ht.
  destruct (reset_timeout_fields s) as (_ & _ & Ha' & _).
  rewrite Ha in Ha'. unfold init.
  repeat match goal with
         | |- context [if ?b then _ else _] => destruct b
         end;
    try (apply startAnimation_single; assumption);
    apply idle_single; assumption.
Qed.

Lemma on_animation_end_single (a : Animation Item Element) s :
  timers s = [] -> animations s = [] ->
  single_pending (on_animation_end a s).
Proof.
  intros Ht Ha. unfold on_animation_end.
  repeat match goal with
         | |- context [if ?b then _ else _] => destruct b
         end;
    try (apply startAnimation_single; assumption);
    apply idle_single; assumption.
Qed.

Lemma remove_nth_length {A : Type} (k : nat) (l : list A) (x : A) :
  nth_error l k = Some x -> length l = S (length (remove_nth k l)).
Proof.
  revert l. induction k as [| k IH]; intros [| y l] H; simpl in *;
    try discriminate; [reflexivity |].
  f_equal. apply IH. assumption.
Qed.

Lemma remove_nth_last {A : Type} (l : list A) (x : A) :
  nth_error (l ++ [x]) (length l) = Some x /\
  remove_nth (length l) (l ++ [x]) = l.
Proof.
  induction l as [| y l [IH1 IH2]]; simpl; [easy |].
  rewrite IH2. easy.
Qed.

Lemma find_timer_in h s (t : Timer Item Element) :
  find_timer h s = Some t -> In t (timers s) /\ timer_id t = h.
Proof.
  unfold find_timer. intros H. apply find_some in H as [Hin Hid].
  apply Pos.eqb_eq in Hid. auto.
Qed.

(** When the fired timer is the one held, no timer is left. *)
Lemma fire_no_timer h s (t : Timer Item Element) :
  single_pending s -> find_timer h s = Some t ->
  timers (clearTimeout h s) = [] /\ animations s = [].
Proof.
  intros [Hlen Hheld] Hf.
  apply find_timer_in in Hf as [Hin <-].
  assert (Hh : animationTimeout s = Some (timer_id t))
    by (rewrite Forall_forall in Hheld; auto).
  split.
  - simpl. apply held_timers_filter. rewrite <- Hh. exact Hheld.
  - destruct (timers s); [destruct Hin |].
    destruct (animations s); [reflexivity | simpl in Hlen; lia].
Qed.

Lemma complete_no_timer k s (a : Animation Item Element) :
  single_pending s -> nth_error (animations s) k = Some a ->
  timers s = [] /\ remove_nth k (animations s) = [].
Proof.
  intros [Hlen _] Hk.
  pose proof (remove_nth_length _ _ _ Hk) as Hl.
  split.
  - destruct (timers s); [reflexivity | simpl in Hlen; lia].
  - destruct (remove_nth k (animations s)); [reflexivity |].
    simpl in Hl. lia.
Qed.

Lemma step_single e c c' :
  settled e (snd c) = true -> single_pending (snd c) ->
  step e c = Some c' -> single_pending (snd c').
Proof.
  destruct c as [p s]. simpl. intros Hok Hsp Hs.
  destruct e as [p' | | | h | k]; simpl in Hs, Hok.
  - injection Hs as <-. simpl. unfold effect. rewrite init_clear.
    apply init_single; [assumption |].
    change (animations s = []).
    destruct (animations s); [reflexivity | discriminate].
  - injection Hs as <-. simpl. unfold onStartOver. rewrite init_clear.
    apply init_single; [assumption |].
    destruct (animations s); [reflexivity | discriminate].
  - injection Hs as <-. simpl.
    destruct Hsp as [Hlen Hheld].
    destruct (clear_fields s) as (_ & _ & Ha & _).
    split; rewrite (clear_no_timer s Hheld); [| constructor].
    rewrite Ha. simpl. lia.
  - destruct (find_timer h s) as [t |] eqn:Hf; [| discriminate].
    injection Hs as <-. simpl.
    destruct (fire_no_timer h s t Hsp Hf) as [Ht Ha].
    simpl in Ht. unfold single_pending. simpl. rewrite Ht, Ha.
    split; [simpl; lia | constructor].
  - destruct (nth_error (animations s) k) as [a |] eqn:Hk; [| discriminate].
    injection Hs as <-. simpl.
    destruct (complete_no_timer k s a Hsp Hk) as [Ht Ha].
    apply on_animation_end_single; simpl; assumption.
Qed.

Lemma mount_single p : single_pending (mount p).
Proof.
  apply init_single; [apply idle_single |]; reflexivity.
Qed.

Lemma run_settled_single p es c :
  run_settled es (p, mount p) = Some c -> single_pending (snd c).
Proof.
  intros Hrun.
  apply (run_where_invariant settled (fun c => single_pending (snd c)))
    with (es := es) (c := (p, mount p)).
  - intros e c1 c2. apply step_single.
  - apply mount_single.
  - exact Hrun.
Qed.

(** After its first lines [init] holds at most the timer it arms. *)
Lemma init_rearms p s :
  Forall (fun t => animationTimeout s = Some (timer_id t)) (timers s) ->
  (timers (init p s) = [] /\ animationTimeout (init p s) = None) \/
  (exists t, timers (init p s) = [t] /\
             timer_id t = next_timer s /\
             animationTimeout (init p s) = Some (timer_id t)).
Proof.
  intros Hheld.
  pose proof (reset_timeout_no_timer s Hheld) as Ht.
  destruct (reset_timeout_fields s) as (_ & _ & _ & Hn & _ & Hh & _).
  unfold init, startAnimation.
  repeat match goal with
         | |- context [if ?b then _ else _] => destruct b
         end; simpl; rewrite ?Ht, ?Hn; simpl; eauto.
Qed.

End SinglePending.

(** ** Initialisation without animation or without content *)

Section Static.

Context {Item Element : Type}.
Implicit Types (p : Props Item Element) (s : State Item Element).
Implicit Types (c : Props Item Element * State Item Element).
Implicit Types (e : Event Item Element) (es : list (Event Item Element)).

(** A run is a run whatever else is required of its events. *)
Lemma run_where_run ok es c c' :
  run_where ok es c = Some c' -> run es c = Some c'.
Proof.
  unfold run. revert c.
  induction es as [| e es IH]; intros c H; simpl in *; [exact H |].
  destruct (ok e (snd c)); [| discriminate].
  destruct (step e c) as [c1 |]; [| discriminate].
  apply IH. exact H.
Qed.

(** While every collection is supplied with animation disabled, no timer
    is ever created and no animation is ever started. *)
Lemma init_never_armed p q s :
  isAnimationEnabled q = false -> never_armed (p, s) ->
  never_armed (q, init q (clear s)).
Proof.
  intros Hq (_ & Ht & Ha & Hn). simpl in *.
  rewrite init_clear.
  destruct (init_disabled_timers q s Hq) as (Ht' & Ha' & Hn').
  destruct (reset_timeout_fields s) as (_ & _ & _ & _ & _ & _ & Hincl).
  repeat split; simpl; try congruence.
  rewrite Ht'. rewrite Ht in Hincl.
  destruct (timers (reset_timeout s)) as [| t ts]; [reflexivity |].
  destruct (Hincl t (or_introl eq_refl)).
Qed.

Lemma step_never_armed e c c' :
  event_props animation_disabled e = true ->
  never_armed c -> step e c = Some c' -> never_armed c'.
Proof.
  destruct c as [p s]. intros He Hc Hs.
  destruct e as [p' | | | h | k]; simpl in Hs, He.
  - injection Hs as <-. apply init_never_armed with (p := p); [| exact Hc].
    apply negb_true_iff. exact He.
  - injection Hs as <-. apply init_never_armed with (p := p); [| exact Hc].
    apply Hc.
  - injection Hs as <-. destruct Hc as (Hen & Ht & Ha & Hn). simpl in *.
    destruct (clear_fields s) as (_ & _ & Ha' & Hn' & _ & _ & Hincl).
    repeat split; simpl; try congruence.
    rewrite Ht in Hincl.
    destruct (timers (clear s)) as [| t ts]; [reflexivity |].
    destruct (Hincl t (or_introl eq_refl)).
  - destruct Hc as (_ & Ht & _). simpl in Ht.
    unfold find_timer in Hs. rewrite Ht in Hs. discriminate.
  - destruct Hc as (_ & _ & Ha & _). simpl in Ha.
    rewrite Ha in Hs. destruct k; discriminate.
Qed.

Lemma disabled_never_arms p es c :
  isAnimationEnabled p = false ->
  all_props animation_disabled es = true ->
  run es (p, mount p) = Some c -> never_armed c.
Proof.
  intros Hp Hes Hrun.
  apply (run_where_and _ _ _ _ _ Hrun) in Hes.
  apply (run_where_invariant _ never_armed) with (3 := Hes).
  - intros e c1 c2 Hok. simpl in Hok. apply step_never_armed. exact Hok.
  - apply (init_never_armed p p (rendered p initial_state) Hp).
    repeat split; assumption || reflexivity.
Qed.

End Static.

(** ** Collections of at most one item *)

Section Fallback.

Context {Item Element : Type}.
Implicit Types (p q : Props Item Element) (s : State Item Element).
Implicit Types (c : Props Item Element * State Item Element).
Implicit Types (e : Event Item Element) (es : list (Event Item Element)).

Lemma rotation_singleton (x : Item) (k : Z) : rotation [x] k = [x].
Proof.
  rewrite rotation_shift by discriminate.
  simpl length. change (Z.of_nat 1) with 1. rewrite Z.mod_1_r.
  apply shift_left_0.
Qed.

Lemma idle_only_fallback q s :
  at_most_one_item q = true -> timers s = [] -> animations s = [] ->
  only_fallback (q, s).
Proof.
  intros Hq Ht Ha. unfold only_fallback. simpl.
  split; [assumption |]. split; [apply idle_single; assumption |].
  rewrite Ht, Ha. split; [intros [H | H]; contradiction |].
  split; constructor.
Qed.

Lemma init_only_fallback q p s :
  at_most_one_item q = true -> only_fallback (p, s) -> animations s = [] ->
  only_fallback (q, init q s).
Proof.
  intros Hq (_ & Hsp & Hflag & Hts & _) Ha. simpl in *.
  pose proof (reset_timeout_no_timer s (proj2 Hsp)) as Ht.
  destruct (reset_timeout_fields s) as (_ & Hf & Ha' & Hn & _).
  rewrite Ha in Ha'.
  unfold at_most_one_item in Hq. apply Nat.leb_le in Hq.
  destruct (items q) as [| x [| y l]] eqn:Hi; [| | simpl in Hq; lia].
  - (* no item *)
    destruct (defaultItem q) as [d |] eqn:Hd.
    + rewrite (init_default q s d Hi Hd).
      apply idle_only_fallback; simpl; try assumption.
      unfold at_most_one_item. rewrite Hi. reflexivity.
    + rewrite init_nothing by auto.
      apply idle_only_fallback; try assumption.
      unfold at_most_one_item. rewrite Hi. reflexivity.
  - (* one item *)
    assert (Hq1 : at_most_one_item q = true)
      by (unfold at_most_one_item; rewrite Hi; reflexivity).
    assert (Hne : items q <> []) by (rewrite Hi; discriminate).
    destruct (isAnimationEnabled q) eqn:He.
    2:{ rewrite init_nothing by auto.
        apply idle_only_fallback; assumption. }
    destruct (defaultItem q) as [d |] eqn:Hd;
      [destruct (isShowDefaultItemBefore s) eqn:Hfs |].
    + (* the transition out of the default item *)
      pose proof (useCallback_enabled q s He) as He'.
      rewrite (init_fallback q s d Hne Hd He Hfs).
      rewrite Hi, rotation_singleton.
      rewrite startAnimation_armed by (simpl; auto).
      unfold only_fallback, single_pending. simpl.
      rewrite Ht, Ha', Hf. simpl.
      repeat split; auto.
      constructor; [| constructor].
      exists d, x. simpl. auto.
    + rewrite init_normal by auto. rewrite Hi. cbv zeta.
      change (1 <? length [x])%nat with false. cbv iota.
      apply idle_only_fallback; [assumption | |];
        destruct (onShow q); assumption.
    + rewrite init_normal by auto. rewrite Hi. cbv zeta.
      change (1 <? length [x])%nat with false. cbv iota.
      apply idle_only_fallback; [assumption | |];
        destruct (onShow q); assumption.
Qed.

(** The completion of the transition out of the default item drops the
    default item and stops. *)
Lemma on_animation_end_fallback (a : Animation Item Element) s :
  isShowDefaultItemBefore s = true ->
  length (anim_lastItems a) = 2%nat ->
  timers (on_animation_end a s) = timers s /\
  animations (on_animation_end a s) = animations s /\
  isShowDefaultItemBefore (on_animation_end a s) = false.
Proof.
  intros Hf Hl. unfold on_animation_end. rewrite Hf.
  destruct (anim_lastItems a) as [| x [| y [| z l]]]; try discriminate.
  rewrite shifted_cons. simpl.
  destruct (onShow (anim_props a)); simpl; auto.
Qed.

Lemma step_only_fallback e c c' :
  settled e (snd c) && event_props at_most_one_item e = true ->
  only_fallback c -> step e c = Some c' -> only_fallback c'.
Proof.
  destruct c as [p s]. simpl. intros Hok Hc Hs.
  apply andb_prop in Hok as [Hok Hq].
  pose proof Hc as (Hp & Hsp & Hflag & Hts & Has). simpl in *.
  assert (Hsp' : single_pending (snd c'))
    by (apply (step_single e (p, s) c' Hok Hsp Hs)).
  destruct e as [q | | | h | k]; simpl in Hs, Hok, Hq.
  - injection Hs as <-. unfold effect. rewrite init_clear.
    apply init_only_fallback with (p := p); try assumption.
    change (animations s = []).
    destruct (animations s); [reflexivity | discriminate].
  - injection Hs as <-. unfold onStartOver. rewrite init_clear.
    apply init_only_fallback with (p := p); try assumption.
    destruct (animations s); [reflexivity | discriminate].
  - injection Hs as <-.
    destruct (clear_fields s) as (_ & Hf' & Ha' & _).
    pose proof (clear_no_timer s (proj2 Hsp)) as Ht'.
    unfold only_fallback. simpl in *.
    split; [assumption |]. split; [exact Hsp' |].
    rewrite Ht', Ha', Hf'.
    split; [intros [H | H]; [contradiction | auto] |].
    split; [constructor | assumption].
  - destruct (find_timer h s) as [t |] eqn:Hf; [| discriminate].
    injection Hs as <-.
    destruct (fire_no_timer h s t Hsp Hf) as [Ht Ha].
    apply find_timer_in in Hf as [Hin _].
    assert (Hft : fallback_timer p t)
      by (rewrite Forall_forall in Hts; auto).
    unfold only_fallback. simpl in *.
    split; [assumption |]. split; [exact Hsp' |].
    rewrite Ht, Ha. simpl.
    split.
    { intros _. apply Hflag. left. intros E. rewrite E in Hin.
      destruct Hin. }
    split; [constructor |].
    constructor; [| constructor].
    destruct Hft as (d & x & _ & _ & -> & _). reflexivity.
  - destruct (nth_error (animations s) k) as [a |] eqn:Hk; [| discriminate].
    injection Hs as <-.
    destruct (complete_no_timer k s a Hsp Hk) as [Ht Ha].
    assert (Hfs : isShowDefaultItemBefore s = true).
    { apply Hflag. right. intros E. rewrite E in Hk.
      destruct k; discriminate. }
    assert (Hla : length (anim_lastItems a) = 2%nat).
    { apply nth_error_In in Hk. rewrite Forall_forall in Has. auto. }
    destruct (on_animation_end_fallback a
                (set_animations (remove_nth k (animations s)) s))
      as (Ht' & Ha' & Hf'); [exact Hfs | exact Hla |].
    simpl in Ht', Ha'.
    apply idle_only_fallback; simpl; congruence.
Qed.

Lemma mount_only_fallback p :
  at_most_one_item p = true -> only_fallback (p, mount p).
Proof.
  intros Hp.
  apply init_only_fallback with (p := p); [assumption | | reflexivity].
  apply idle_only_fallback; [assumption | reflexivity | reflexivity].
Qed.

End Fallback.

(** ** The normal rotation *)

Section Rotating.

Context {Item Element : Type}.
Implicit Types (p q : Props Item Element) (s : State Item Element).
Implicit Types (c : Props Item Element * State Item Element).
Implicit Types (e : Event Item Element) (es : list (Event Item Element)).
Implicit Types (a : Animation Item Element) (w : list Item).

Lemma on_animation_end_flag a s :
  isShowDefaultItemBefore (on_animation_end a s) = false.
Proof.
  unfold on_animation_end, startAnimation.
  destruct (isShowDefaultItemBefore s) eqn:Hf;
    repeat match goal with
           | |- context [if ?b then _ else _] => destruct b
           end; simpl; auto.
Qed.

Lemma find_all_false {A : Type} (f : A -> bool) (l : list A) :
  (forall x, In x l -> f x = false) -> find f l = None.
Proof.
  induction l as [| x l IH]; intros H; simpl; [reflexivity |].
  rewrite (H x (or_introl eq_refl)). apply IH.
  intros y Hy. apply H. right. exact Hy.
Qed.

Lemma find_timer_new (n : positive) (ts : list (Timer Item Element))
    (t : Timer Item Element) :
  Forall (fun t => (timer_id t < n)%positive) ts -> timer_id t = n ->
  find (fun t => Pos.eqb (timer_id t) n) (ts ++ [t]) = Some t.
Proof.
  intros Hts Ht.
  induction Hts as [| t' ts Hlt _ IH]; simpl.
  - rewrite Ht, Pos.eqb_refl. reflexivity.
  - destruct (Pos.eqb_spec (timer_id t') n) as [E | _]; [lia | exact IH].
Qed.

(** [init] on its normal path, with at least two items: the rotation is
    displayed, notified to the observer of this render, and armed with the
    memoized [startAnimation]. *)
Lemma init_armed p s :
  timers_fresh s -> isShowDefaultItemBefore s = false ->
  isAnimationEnabled p = true -> (2 <= length (items p))%nat ->
  armed (useCallback p s) (rotation (items p) (startIndex p))
    (startIndex p) (init p s) /\
  shown (init p s)
  = shown s ++
    (if onShow p
     then [(get (rotation (items p) (startIndex p)) 0, Num (startIndex p))]
     else []).
Proof.
  intros Hfresh Hf He Hn.
  assert (Hne : items p <> [])
    by (destruct (items p); simpl in Hn; [lia | easy]).
  pose proof (useCallback_enabled p s He) as He'.
  pose proof (init_fresh p s Hfresh) as Hfresh'.
  apply reset_timeout_fresh in Hfresh as [Hlt _].
  destruct (reset_timeout_fields s) as (_ & Hf' & _ & Hnx & Hsh & _).
  assert (Hinit :
    init p s
    = startAnimation (useCallback p s) (rotation (items p) (startIndex p))
        (Num (startIndex p)) None
        (if onShow p
         then call_onShow (get (rotation (items p) (startIndex p)) 0)
                (Num (startIndex p))
                (setCopiedItems (rotation (items p) (startIndex p))
                   (reset_timeout s))
         else setCopiedItems (rotation (items p) (startIndex p))
                (reset_timeout s))).
  { rewrite init_normal by auto. cbv zeta.
    destruct (Nat.ltb_spec 1 (length (items p))) as [_ | ?]; [| lia].
    reflexivity. }
  rewrite startAnimation_armed in Hinit
    by (try rewrite rotation_length; assumption).
  unfold armed. rewrite Hinit in *. clear Hinit.
  destruct (onShow p); simpl;
    (split; [split; [exact Hfresh' |] |]).
  - split; [congruence |]. split; [reflexivity |].
    eexists _, _. split; [reflexivity |].
    split; [| split; [| split]].
    + unfold find_timer. simpl.
      apply find_timer_new; [exact Hlt | reflexivity].
    + reflexivity.
    + reflexivity.
    + reflexivity.
  - rewrite Hsh. reflexivity.
  - split; [congruence |]. split; [reflexivity |].
    eexists _, _. split; [reflexivity |].
    split; [| split; [| split]].
    + unfold find_timer. simpl.
      apply find_timer_new; [exact Hlt | reflexivity].
    + reflexivity.
    + reflexivity.
    + reflexivity.
  - rewrite Hsh. symmetry. apply app_nil_r.
Qed.

Lemma shifted_length w : length (shifted w) = length w.
Proof.
  destruct w as [| x w]; [reflexivity |].
  rewrite shifted_cons, length_app. simpl. lia.
Qed.

Lemma iter_shifted_length (k : nat) w :
  length (Nat.iter k shifted w) = length w.
Proof.
  induction k as [| k IH]; simpl; [reflexivity |].
  rewrite shifted_length. exact IH.
Qed.

(** The completion callback on its normal path: the counter goes up by
    one, as far as a double can tell. *)
Lemma on_animation_end_normal a s (k : Z) :
  isShowDefaultItemBefore s = false ->
  (2 <= length (anim_lastItems a))%nat ->
  anim_counter a = Num k -> 0 <= k ->
  on_animation_end a s
  = let w := shifted (anim_lastItems a) in
    let i :=
      Num (round (k + 1) mod Z.of_nat (length (anim_lastItems a))) in
    let s1 :=
      if onShow (anim_props a) then call_onShow (get w 0) i s else s in
    startAnimation (anim_props a) w (Num (round (k + 1))) None
      (setCopiedItems w s1).
Proof.
  intros Hf Hl Hc Hk. unfold on_animation_end.
  pose proof (round_nonneg (k + 1)) as Hr.
  rewrite Hf, Hc. cbv zeta. unfold add, rem.
  destruct (Z.eqb_spec (Z.of_nat (length (anim_lastItems a))) 0)
    as [? | _]; [lia |].
  rewrite Z.rem_mod_nonneg by lia.
  rewrite shifted_length.
  destruct (Nat.ltb_spec 1 (length (anim_lastItems a))) as [_ | ?]; [| lia].
  reflexivity.
Qed.


(** One advance of an armed rotation: the window is rotated by one, the
    observer held by the closure [p] of the timer is told the new first
    element with the next counter modulo the window length, and the
    rotation is armed again. *)
Lemma advance_armed p q w (k : Z) s :
  armed p w k s -> isAnimationEnabled p = true ->
  (2 <= length w)%nat -> 0 <= k ->
  exists s',
    advance (q, s) = Some (q, s') /\
    armed p (shifted w) (round (k + 1)) s' /\
    shown s'
    = shown s ++
      (if onShow p
       then [(get (shifted w) 0,
              Num (round (k + 1) mod Z.of_nat (length w)))]
       else []).
Proof.
  intros ([Hlt Hhl] & Hflag & Hwin & h & t & Hh & Hfind & Hp & Hw & Hc)
    He Hl Hk.
  destruct t as [tid tp tw tc td]. simpl in Hp, Hw, Hc. subst tp tw tc.
  unfold advance. simpl snd. rewrite Hh. simpl. rewrite Hfind. simpl.
  destruct (remove_nth_last (animations s) (mkAnimation p w (Num k)))
    as [Hnth Hrem].
  rewrite Hnth, Hrem.
  eexists. split; [reflexivity |].
  rewrite (on_animation_end_normal _ _ k)
    by (simpl; first [assumption | reflexivity]).
  simpl anim_props. simpl anim_lastItems. cbv zeta.
  rewrite startAnimation_armed
    by (try rewrite shifted_length; assumption).
  assert (Hlt' :
    Forall (fun t0 : Timer Item Element =>
              (timer_id t0 < next_timer s)%positive)
      (filter (fun t0 => negb (Pos.eqb (timer_id t0) h)) (timers s)))
    by (apply fresh_filter; exact Hlt).
  unfold armed, timers_fresh.
  destruct (onShow p); cbn -[round].
  - split; [| rewrite app_nil_r || reflexivity].
    split; [split |].
    + apply Forall_app. split; [apply fresh_weaken; exact Hlt' |].
      constructor; [simpl; lia | constructor].
    + intros h' [= <-]. lia.
    + split; [exact Hflag |]. split; [reflexivity |].
      eexists _, _. split; [reflexivity |].
      split; [| split; [| split]].
      * unfold find_timer. cbn -[round].
        apply find_timer_new; [exact Hlt' | reflexivity].
      * reflexivity.
      * reflexivity.
      * reflexivity.
  - split; [| symmetry; apply app_nil_r].
    split; [split |].
    + apply Forall_app. split; [apply fresh_weaken; exact Hlt' |].
      constructor; [simpl; lia | constructor].
    + intros h' [= <-]. lia.
    + split; [exact Hflag |]. split; [reflexivity |].
      eexists _, _. split; [reflexivity |].
      split; [| split; [| split]].
      * unfold find_timer. cbn -[round].
        apply find_timer_new; [exact Hlt' | reflexivity].
      * reflexivity.
      * reflexivity.
      * reflexivity.
Qed.

Lemma advances_succ (n : nat) c :
  advances (S n) c
  = match advances n c with
    | Some c' => advance c'
    | None => None
    end.
Proof.
  revert c. induction n as [| n IH]; intros c.
  - simpl. destruct (advance c); reflexivity.
  - change (advances (S (S n)) c)
      with (match advance c with
            | Some c' => advances (S n) c'
            | None => None
            end).
    destruct (advance c) as [c1 |] eqn:E; simpl; rewrite E; [| reflexivity].
    apply IH.
Qed.

(** The notifications of the first [n] advances of a rotation armed on
    window [w] with counter [k]. *)
Lemma advances_armed (n : nat) p q w (k : Z) s :
  armed p w k s -> isAnimationEnabled p = true ->
  (2 <= length w)%nat -> 0 <= k ->
  exists s',
    advances n (q, s) = Some (q, s') /\
    armed p (Nat.iter n shifted w) (counter_after n k) s' /\
    shown s'
    = shown s ++
      (if onShow p
       then map (fun j => (get (Nat.iter j shifted w) 0,
                           Num (counter_after j k mod Z.of_nat (length w))))
              (seq 1 n)
       else []).
Proof.
  intros Harmed He Hl Hk.
  induction n as [| n (s1 & Hrun & Harmed1 & Hshown1)].
  - exists s. split; [reflexivity |].
    split; [exact Harmed |].
    simpl. destruct (onShow p); symmetry; apply app_nil_r.
  - destruct (advance_armed p q _ _ s1 Harmed1 He)
      as (s2 & Hadv & Harmed2 & Hshown2);
      [rewrite iter_shifted_length; exact Hl
      | apply counter_after_nonneg; exact Hk |].
    exists s2. rewrite advances_succ, Hrun.
    split; [exact Hadv |].
    split; [exact Harmed2 |].
    rewrite Hshown2, Hshown1, iter_shifted_length.
    destruct (onShow p); [| rewrite !app_nil_r; reflexivity].
    rewrite seq_S, map_app, <- app_assoc. reflexivity.
Qed.

(** [startOver] on the normal path of [init]. *)
Lemma startOver_normal p s :
  timers_fresh s ->
  items p <> [] -> isAnimationEnabled p = true ->
  defaultItem p = None \/ isShowDefaultItemBefore s = false ->
  copiedItems (onStartOver p s) = rotation (items p) (startIndex p) /\
  shown (onStartOver p s)
  = shown s ++
    (if onShow p
     then [(get (rotation (items p) (startIndex p)) 0, Num (startIndex p))]
     else []) /\
  forall h, animationTimeout s = Some h ->
            find_timer h (onStartOver p s) = None.
Proof.
  intros [Hlt Hhl] Hne He Hf.
  unfold onStartOver. rewrite init_clear, init_normal by auto.
  cbv zeta. unfold startAnimation.
  rewrite (useCallback_enabled p s He).
  destruct (reset_timeout_fields s) as (_ & _ & _ & Hnx & Hsh & _).
  assert (Hold : forall h t,
             animationTimeout s = Some h ->
             In t (timers (reset_timeout s)) ->
             Pos.eqb (timer_id t) h = false).
  { intros h t Hh Hin. unfold reset_timeout in Hin. rewrite Hh in Hin.
    simpl in Hin. apply filter_In in Hin as [_ Hin].
    apply negb_true_iff. exact Hin. }
  destruct (onShow p), (1 <? length (items p))%nat,
    (length (rotation (items p) (startIndex p)) <=? 1)%nat;
    simpl; rewrite ?Hsh, ?app_nil_r;
    (split; [reflexivity |]); (split; [reflexivity |]);
    intros h Hh; unfold find_timer; simpl;
    apply find_all_false; intros t Hin;
    try (apply (Hold h t Hh Hin));
    (apply in_app_or in Hin as [Hin | [<- | []]];
     [apply (Hold h t Hh Hin) |]);
    simpl; apply Pos.eqb_neq; rewrite Hnx;
    specialize (Hhl h Hh); lia.
Qed.

End Rotating.

(** ** Counters sent to the observer *)

Section Counters.

Context {Item Element : Type}.
Implicit Types (p q : Props Item Element) (s : State Item Element).
Implicit Types (c : Props Item Element * State Item Element).
Implicit Types (e : Event Item Element) (es : list (Event Item Element)).
Implicit Types (a : Animation Item Element) (w : list Item).

Lemma same_shape_spec (n : nat) p :
  same_shape n p = true ->
  length (items p) = n /\ 0 <= startIndex p < Z.of_nat n /\ items p <> [].
Proof.
  unfold same_shape. intros H.
  apply andb_prop in H as [H H3]. apply andb_prop in H as [H1 H2].
  apply Nat.eqb_eq in H1. apply Z.leb_le in H2. apply Z.ltb_lt in H3.
  repeat split; try assumption.
  intros E. rewrite E in H1. simpl in H1. lia.
Qed.

Lemma startAnimation_fields p w k f s :
  copiedItems (startAnimation p w k f s) = copiedItems s /\
  isShowDefaultItemBefore (startAnimation p w k f s)
  = isShowDefaultItemBefore s /\
  animations (startAnimation p w k f s) = animations s /\
  shown (startAnimation p w k f s) = shown s.
Proof.
  unfold startAnimation.
  destruct (negb (isAnimationEnabled p) || (length w <=? 1)%nat); simpl;
    auto.
Qed.

Lemma startAnimation_sound (n : nat) p w k f s :
  Forall (fun t => sound_snapshot n (timer_props t) (timer_lastItems t)
                     (timer_counter t)) (timers s) ->
  length w = n -> (exists z, k = Num z /\ 0 <= z) ->
  Forall (fun t => sound_snapshot n (timer_props t) (timer_lastItems t)
                     (timer_counter t)) (timers (startAnimation p w k f s)).
Proof.
  intros Hts Hw Hk. unfold startAnimation.
  destruct (isAnimationEnabled p) eqn:He; simpl; [| exact Hts].
  destruct (Nat.leb_spec (length w) 1) as [_ | Hl]; simpl; [exact Hts |].
  apply Forall_app. split; [exact Hts |].
  constructor; [| constructor]. simpl.
  repeat split; try assumption. lia.
Qed.

Lemma init_counters (n : nat) p q s :
  counters_in_range n (p, s) -> same_shape n q = true ->
  counters_in_range n (q, init q s).
Proof.
  intros (_ & Hf & Hts & Has & Hsh) Hq. simpl in *.
  destruct (same_shape_spec n q Hq) as (Hn & Hk & Hne).
  destruct (reset_timeout_fields s) as (_ & _ & Ha & _ & Hs & _ & Hincl).
  assert (Hts' : Forall (fun t => sound_snapshot n (timer_props t)
                                    (timer_lastItems t) (timer_counter t))
                   (timers (reset_timeout s)))
    by (apply (incl_Forall Hincl); exact Hts).
  split; [exact Hq |]. simpl.
  split; [rewrite init_flag by assumption; exact Hf |].
  destruct (isAnimationEnabled q) eqn:He.
  2:{ rewrite init_nothing by auto. rewrite Ha, Hs. auto. }
  rewrite init_normal by auto. cbv zeta.
  set (w := rotation (items q) (startIndex q)).
  set (s1 := setCopiedItems w (reset_timeout s)).
  set (s2 := if onShow q
             then call_onShow (get w 0) (Num (startIndex q)) s1 else s1).
  assert (Hts2 : timers s2 = timers (reset_timeout s))
    by (unfold s2; destruct (onShow q); reflexivity).
  assert (Has2 : animations s2 = animations s)
    by (unfold s2; destruct (onShow q); simpl; exact Ha).
  assert (Hsh2 : Forall (fun x => index_in_range n (snd x)) (shown s2)).
  { unfold s2. destruct (onShow q); simpl; rewrite Hs; [| exact Hsh].
    apply Forall_app. split; [exact Hsh |].
    constructor; [| constructor]. simpl. exists (startIndex q). auto. }
  destruct (1 <? length (items q))%nat.
  - destruct (startAnimation_fields (useCallback q s) w
                (Num (startIndex q)) None s2) as (_ & _ & -> & ->).
    rewrite Has2. repeat split; try assumption.
    apply startAnimation_sound.
    + rewrite Hts2. exact Hts'.
    + unfold w. rewrite rotation_length. exact Hn.
    + exists (startIndex q). split; [reflexivity | lia].
  - rewrite Hts2, Has2. auto.
Qed.

Lemma on_animation_end_counters (n : nat) a s :
  isShowDefaultItemBefore s = false ->
  sound_snapshot n (anim_props a) (anim_lastItems a) (anim_counter a) ->
  Forall (fun t => sound_snapshot n (timer_props t) (timer_lastItems t)
                     (timer_counter t)) (timers s) ->
  Forall (fun x => index_in_range n (snd x)) (shown s) ->
  Forall (fun t => sound_snapshot n (timer_props t) (timer_lastItems t)
                     (timer_counter t)) (timers (on_animation_end a s)) /\
  animations (on_animation_end a s) = animations s /\
  Forall (fun x => index_in_range n (snd x)) (shown (on_animation_end a s)).
Proof.
  intros Hf (He & Hw & Hn & k & Hk & Hk0) Hts Hsh.
  pose proof (round_nonneg (k + 1)) as Hr.
  rewrite (on_animation_end_normal a s k) by (try assumption; lia).
  cbv zeta.
  set (w := shifted (anim_lastItems a)).
  set (s1 := if onShow (anim_props a)
             then call_onShow (get w 0)
                    (Num (round (k + 1)
                          mod Z.of_nat (length (anim_lastItems a)))) s
             else s).
  destruct (startAnimation_fields (anim_props a) w (Num (round (k + 1)))
              None (setCopiedItems w s1)) as (_ & _ & -> & ->).
  assert (Hts1 : timers s1 = timers s)
    by (unfold s1; destruct (onShow (anim_props a)); reflexivity).
  assert (Has1 : animations s1 = animations s)
    by (unfold s1; destruct (onShow (anim_props a)); reflexivity).
  split; [| split].
  - apply startAnimation_sound.
    + simpl. rewrite Hts1. exact Hts.
    + unfold w. rewrite shifted_length. exact Hw.
    + exists (round (k + 1)). split; [reflexivity | lia].
  - simpl. exact Has1.
  - cbn [shown setCopiedItems]. unfold s1.
    destruct (onShow (anim_props a)); cbn [shown call_onShow];
      [| exact Hsh].
    apply Forall_app. split; [exact Hsh |].
    constructor; [| constructor]. cbn [snd].
    exists (round (k + 1) mod Z.of_nat (length (anim_lastItems a))).
    split; [reflexivity |]. rewrite Hw. apply Z.mod_pos_bound. lia.
Qed.

Lemma remove_nth_incl {A : Type} (k : nat) (l : list A) :
  incl (remove_nth k l) l.
Proof.
  revert l. induction k as [| k IH]; intros [| x l]; simpl;
    try apply incl_refl.
  - apply incl_tl, incl_refl.
  - apply incl_cons; [left; reflexivity |].
    apply incl_tl, IH.
Qed.

Lemma step_counters (n : nat) e c c' :
  event_props (same_shape n) e = true ->
  counters_in_range n c -> step e c = Some c' -> counters_in_range n c'.
Proof.
  destruct c as [p s]. intros He Hc Hs.
  pose proof Hc as (Hp & Hf & Hts & Has & Hsh). simpl in *.
  destruct (clear_fields s) as (_ & Hcf & Hca & _ & Hcs & _ & Hincl).
  assert (Hclear : counters_in_range n (p, clear s)).
  { split; [exact Hp |]. simpl.
    split; [congruence |].
    split; [apply (incl_Forall Hincl); exact Hts |].
    split; [rewrite Hca; exact Has | rewrite Hcs; exact Hsh]. }
  destruct e as [q | | | h | k]; simpl in Hs, He.
  - injection Hs as <-. unfold effect. rewrite init_clear.
    apply init_counters with (p := p); [exact Hc | assumption].
  - injection Hs as <-. apply init_counters with (p := p); assumption.
  - injection Hs as <-. exact Hclear.
  - destruct (find_timer h s) as [t |] eqn:Hfind; [| discriminate].
    injection Hs as <-. apply find_timer_in in Hfind as [Hin _].
    split; [exact Hp |]. simpl.
    split; [exact Hf |].
    split; [apply (incl_Forall (incl_filter _ _)); exact Hts |].
    split; [| exact Hsh].
    apply Forall_app. split; [exact Has |].
    constructor; [| constructor].
    rewrite Forall_forall in Hts. apply Hts. exact Hin.
  - destruct (nth_error (animations s) k) as [a |] eqn:Hk; [| discriminate].
    injection Hs as <-.
    assert (Ha : sound_snapshot n (anim_props a) (anim_lastItems a)
                   (anim_counter a)).
    { apply nth_error_In in Hk. rewrite Forall_forall in Has. auto. }
    destruct (on_animation_end_counters n a
                (set_animations (remove_nth k (animations s)) s))
      as (Hts' & Has' & Hsh'); try assumption.
    split; [exact Hp |]. split; [apply on_animation_end_flag |].
    split; [exact Hts' |]. split; [| exact Hsh'].
    simpl. rewrite Has'. simpl.
    apply (incl_Forall (remove_nth_incl k _)). exact Has.
Qed.

Lemma mount_counters (n : nat) p :
  same_shape n p = true -> counters_in_range n (p, mount p).
Proof.
  intros Hp. apply init_counters with (p := p); [| exact Hp].
  split; [exact Hp |]. simpl.
  split; [reflexivity |]. repeat split; constructor.
Qed.

End Counters.

(** ** The transition out of the default item *)

Section Transition.

Context {Item Element : Type}.
Implicit Types (p q : Props Item Element) (s : State Item Element).
Implicit Types (a : Animation Item Element) (w : list Item).

(** The completion callback while the default item is flagged: the default
    item is dropped, the flag cleared, the counter sent is the one carried,
    and the timer is armed again with that counter plus one. *)
Lemma on_animation_end_default a s (d : Item) w (k : Z) :
  isShowDefaultItemBefore s = true ->
  anim_lastItems a = d :: w -> (2 <= length w)%nat ->
  anim_counter a = Num k -> 0 <= k < Z.of_nat (length w) ->
  k < 2 ^ 53 ->
  on_animation_end a s
  = let s0 := set_isShowDefaultItemBefore false s in
    let s1 :=
      if onShow (anim_props a) then call_onShow (get w 0) (Num k) s0
      else s0 in
    startAnimation (anim_props a) w (Num (k + 1)) None (setCopiedItems w s1).
Proof.
  intros Hf Hw Hl Hc Hk Hb. unfold on_animation_end.
  rewrite Hf, Hc, Hw, shifted_cons. cbv zeta. unfold add, rem, sub, pop.
  rewrite removelast_last.
  rewrite (round_exact (k + 1)) by lia.
  destruct (Z.eqb_spec (Z.of_nat (length (d :: w))) 0) as [E | _];
    [simpl length in E; lia |].
  rewrite Z.rem_small by (simpl length; lia).
  rewrite (round_exact (k + 1 - 1)) by lia.
  replace (k + 1 - 1) with k by lia.
  destruct (Nat.ltb_spec 1 (length w)) as [_ | ?]; [| lia].
  reflexivity.
Qed.

(** One advance of a rotation armed on the window [d :: w] while the
    default item is flagged; [p] is the closure of the timer. *)
Lemma advance_default p q (d : Item) w (k : Z) s :
  timers_fresh s -> isShowDefaultItemBefore s = true ->
  (exists h t,
      animationTimeout s = Some h /\
      find_timer h s = Some t /\
      timer_props t = p /\
      timer_lastItems t = d :: w /\
      timer_counter t = Num k) ->
  isAnimationEnabled p = true ->
  (2 <= length w)%nat -> 0 <= k < Z.of_nat (length w) -> k < 2 ^ 53 ->
  exists s',
    advance (q, s) = Some (q, s') /\
    armed p w (k + 1) s' /\
    shown s' = shown s ++ (if onShow p then [(get w 0, Num k)] else []).
Proof.
  intros [Hlt Hhl] Hflag (h & t & Hh & Hfind & Hp & Hw & Hc) He Hl Hk Hb.
  destruct t as [tid tp tw tc td]. simpl in Hp, Hw, Hc. subst tp tw tc.
  unfold advance. simpl snd. rewrite Hh. simpl. rewrite Hfind. simpl.
  destruct (remove_nth_last (animations s) (mkAnimation p (d :: w) (Num k)))
    as [Hnth Hrem].
  rewrite Hnth, Hrem.
  eexists. split; [reflexivity |].
  rewrite (on_animation_end_default _ _ d w k)
    by (simpl; first [assumption | reflexivity]).
  simpl anim_props. cbv zeta.
  rewrite startAnimation_armed by assumption.
  assert (Hlt' :
    Forall (fun t0 : Timer Item Element =>
              (timer_id t0 < next_timer s)%positive)
      (filter (fun t0 => negb (Pos.eqb (timer_id t0) h)) (timers s)))
    by (apply fresh_filter; exact Hlt).
  unfold armed, timers_fresh.
  destruct (onShow p); simpl.
  - split; [| reflexivity].
    split; [split |].
    + apply Forall_app. split; [apply fresh_weaken; exact Hlt' |].
      constructor; [simpl; lia | constructor].
    + intros h' [= <-]. lia.
    + split; [reflexivity |]. split; [reflexivity |].
      eexists _, _. split; [reflexivity |].
      split; [| split; [| split]].
      * unfold find_timer. simpl.
        apply find_timer_new; [exact Hlt' | reflexivity].
      * reflexivity.
      * reflexivity.
      * reflexivity.
  - split; [| symmetry; apply app_nil_r].
    split; [split |].
    + apply Forall_app. split; [apply fresh_weaken; exact Hlt' |].
      constructor; [simpl; lia | constructor].
    + intros h' [= <-]. lia.
    + split; [reflexivity |]. split; [reflexivity |].
      eexists _, _. split; [reflexivity |].
      split; [| split; [| split]].
      * unfold find_timer. simpl.
        apply find_timer_new; [exact Hlt' | reflexivity].
      * reflexivity.
      * reflexivity.
      * reflexivity.
Qed.

(** [init] when real items replace the default item: the default item is
    put in front of the rotation, nothing is notified, and the timer,
    armed with the memoized [startAnimation], carries [_startIndex]. *)
Lemma init_default_armed p s (d : Item) :
  timers_fresh s -> isShowDefaultItemBefore s = true ->
  defaultItem p = Some d -> isAnimationEnabled p = true ->
  items p <> [] ->
  0 <= startIndex p < Z.of_nat (length (items p)) ->
  timers_fresh (init p s) /\
  isShowDefaultItemBefore (init p s) = true /\
  copiedItems (init p s) = d :: rotation (items p) (startIndex p) /\
  shown (init p s) = shown s /\
  exists h t,
    animationTimeout (init p s) = Some h /\
    find_timer h (init p s) = Some t /\
    timer_props t = useCallback p s /\
    timer_lastItems t = d :: rotation (items p) (startIndex p) /\
    timer_counter t = Num (startIndex p).
Proof.
  intros Hfresh Hf Hd He Hne Hk.
  pose proof (useCallback_enabled p s He) as He'.
  pose proof (init_fresh p s Hfresh) as Hfresh'.
  apply reset_timeout_fresh in Hfresh as [Hlt _].
  destruct (reset_timeout_fields s) as (_ & Hf' & _ & Hnx & Hsh & _).
  split; [exact Hfresh' |].
  rewrite (init_fallback p s d Hne Hd He Hf).
  rewrite startAnimation_armed
    by (first [assumption
              | simpl; rewrite rotation_length;
                destruct (items p); [contradiction | simpl; lia]]).
  simpl.
  split; [congruence |]. split; [reflexivity |]. split; [exact Hsh |].
  eexists _, _. split; [reflexivity |].
  split; [| split; [| split]].
  - unfold find_timer. simpl.
    apply find_timer_new; [exact Hlt | reflexivity].
  - reflexivity.
  - reflexivity.
  - simpl. unfold start_index, rem.
    destruct (Z.eqb_spec (Z.of_nat (length (items p))) 0) as [? | _]; [lia |].
    rewrite Z.rem_small by lia. reflexivity.
Qed.

Lemma successors_differ (k n : Z) :
  2 <= n -> (k + 2) mod n <> (k + 1) mod n.
Proof.
  intros Hn E.
  assert (H : ((k + 2) - (k + 1)) mod n = 0)
    by (rewrite Zminus_mod, E, Z.sub_diag; apply Z.mod_0_l; lia).
  replace (k + 2 - (k + 1)) with 1 in H by lia.
  rewrite Z.mod_1_l in H by lia. discriminate.
Qed.

(** X15. When [n >= 2] items replace the default item, whatever the
    in-range start index [k], and when the memoized [startAnimation] holds
    an observer: the completion of the transition displays the rotation
    and sends the counter [k]; the timer it arms carries [k + 1], and the
    advance that follows sends [(k + 2) mod n], which is never
    [(k + 1) mod n]. *)
Lemma default_transition_skips_a_counter p s (d : Item) :
  timers_fresh s -> isShowDefaultItemBefore s = true ->
  defaultItem p = Some d ->
  isAnimationEnabled p = true -> onShow (useCallback p s) = true ->
  (2 <= length (items p))%nat ->
  Z.of_nat (length (items p)) <= max_length ->
  0 <= startIndex p < Z.of_nat (length (items p)) ->
  let w := rotation (items p) (startIndex p) in
  let n := Z.of_nat (length (items p)) in
  copiedItems (init p s) = d :: w /\
  shown (init p s) = shown s /\
  exists s1 s2,
    advance (p, init p s) = Some (p, s1) /\
    armed (useCallback p s) w (startIndex p + 1) s1 /\
    shown s1 = shown s ++ [(get w 0, Num (startIndex p))] /\
    advance (p, s1) = Some (p, s2) /\
    shown s2
    = shown s1 ++ [(get (shifted w) 0, Num ((startIndex p + 2) mod n))] /\
    (startIndex p + 2) mod n <> (startIndex p + 1) mod n.
Proof.
  intros Hfresh Hf Hd He Ho Hn Hmax Hk w n.
  apply max_length_exact in Hmax.
  assert (Hne : items p <> [])
    by (destruct (items p); simpl in Hn; [lia | easy]).
  assert (Hlw : length w = length (items p)) by apply rotation_length.
  pose proof (useCallback_enabled p s He) as He'.
  destruct (init_default_armed p s d Hfresh Hf Hd He Hne Hk)
    as (Hfresh0 & Hf0 & Hw0 & Hsh0 & Htimer).
  split; [exact Hw0 |]. split; [exact Hsh0 |].
  destruct (advance_default (useCallback p s) p d w (startIndex p) (init p s)
              Hfresh0 Hf0 Htimer He') as (s1 & Hadv1 & Harmed1 & Hsh1);
    [lia | lia | lia |].
  destruct (advance_armed (useCallback p s) p w (startIndex p + 1) s1
              Harmed1 He')
    as (s2 & Hadv2 & _ & Hsh2); [lia | lia |].
  rewrite Ho in Hsh1, Hsh2. rewrite Hsh0 in Hsh1.
  exists s1, s2.
  split; [exact Hadv1 |]. split; [exact Harmed1 |]. split; [exact Hsh1 |].
  split; [exact Hadv2 |].
  split; [| apply successors_differ; unfold n; lia].
  rewrite Hsh2, Hlw, round_exact by lia.
  replace (startIndex p + 1 + 1) with (startIndex p + 2) by lia.
  reflexivity.
Qed.

End Transition.

(** * The specification, claim by claim *)

(** C1 (amended). For a collection that keeps its [n >= 1] items and a
    start index in range ([0 <= startIndex < n]), every counter passed to
    the observer, by [init] or by the completion of an animation, after any
    events whatever, is in range: [0 <= counter < n]. *)
Theorem onShow_counter_in_range {Item Element : Type}
    (p : Props Item Element) (es : list (Event Item Element))
    (c : Props Item Element * State Item Element) :
  0 <= startIndex p < Z.of_nat (length (items p)) ->
  all_props (same_shape (length (items p))) es = true ->
  run es (p, mount p) = Some c ->
  forall (x : option Item) (i : number),
    In (x, i) (shown (snd c)) ->
    exists z, i = Num z /\ 0 <= z < Z.of_nat (length (items p)).
Proof.
  intros Hk Hes Hrun x i Hin.
  apply (run_where_and _ _ _ _ _ Hrun) in Hes.
  assert (Hinv : counters_in_range (length (items p)) c).
  { apply (run_where_invariant _ (counters_in_range (length (items p))))
      with (3 := Hes).
    - intros e c1 c2 Hok. simpl in Hok. apply step_counters. exact Hok.
    - apply mount_counters. unfold same_shape.
      rewrite Nat.eqb_refl. simpl.
      apply andb_true_intro. split; [apply Z.leb_le | apply Z.ltb_lt]; lia. }
  destruct Hinv as (_ & _ & _ & _ & Hsh).
  rewrite Forall_forall in Hsh. apply (Hsh (x, i) Hin).
Qed.

Lemma onShow_counter_in_range_witness :
  let p := Examples.props Examples.ABC None true 1 in
  let es :=
    [Fire 1%positive; Complete 0; Fire 2%positive; StartOver; Complete 0;
     Fire 3%positive; Complete 0] in
  0 <= startIndex p < Z.of_nat (length (items p)) /\
  all_props (same_shape (length (items p))) es = true /\
  exists c,
    run es (p, mount p) = Some c /\
    map snd (shown (snd c)) = [Num 1; Num 2; Num 1; Num 0; Num 2] /\
    forall x i, In (x, i) (shown (snd c)) -> exists z, i = Num z /\ 0 <= z < 3.
Proof.
  intros p es. split; [simpl; lia |]. split; [reflexivity |].
  eexists. split; [vm_compute; reflexivity |].
  split; [vm_compute; reflexivity |].
  apply (onShow_counter_in_range p es).
  - simpl. lia.
  - reflexivity.
  - vm_compute. reflexivity.
Defined.

(** C1 as stated fails.  With three items and [startIndex = -5], [init]
    passes the raw start index to the observer, and the first advance sends
    [(-5 + 1) % 3 = -1].  With [startIndex = 5], [init] sends the counter
    [5] although it displays the rotation by [5 % 3 = 2]. *)
Lemma onShow_counter_counterexample :
  (let p := Examples.props Examples.ABC None true (-5) in
   observe (run [Fire 1%positive; Complete 0] (p, mount p))
   = Some (["C"; "A"; "B"]%string, false, [Num (-4)],
           [(Some "B"%string, Num (-5)); (Some "C"%string, Num (-1))])) /\
  (let p := Examples.props Examples.ABC None true 5 in
   start_index (items p) (startIndex p) = Num 2 /\
   copiedItems (mount p) = ["C"; "A"; "B"]%string /\
   shown (mount p) = [(Some "C"%string, Num 5)] /\
   ~ 0 <= 5 < Z.of_nat (length (items p))).
Proof.
  cbv zeta. split; [vm_compute; reflexivity |].
  do 3 (split; [vm_compute; reflexivity |]).
  simpl. lia.
Qed.

(** C2 (amended). With animation disabled and a non-empty collection,
    [init] only runs its first lines: the pending timer is cancelled and
    its handle nulled, the Rotation Window and the observer are left
    untouched, and no timer is created.  As long as animation stays
    disabled no timer is ever created. *)
Theorem init_animation_disabled {Item Element : Type}
    (p : Props Item Element) (s : State Item Element) :
  items p <> [] -> isAnimationEnabled p = false ->
  init p s = reset_timeout s /\
  copiedItems (init p s) = copiedItems s /\
  shown (init p s) = shown s /\
  animationTimeout (init p s) = None /\
  next_timer (init p s) = next_timer s /\
  incl (timers (init p s)) (timers s) /\
  copiedItems (mount p) = [] /\
  shown (mount p) = [] /\
  forall es c,
    all_props animation_disabled es = true ->
    run es (p, mount p) = Some c ->
    timers (snd c) = [] /\ next_timer (snd c) = 1%positive.
Proof.
  intros Hi He.
  assert (Hmount : mount p = rendered p initial_state)
    by (unfold mount; rewrite init_nothing by auto; reflexivity).
  rewrite init_nothing by auto.
  destruct (reset_timeout_fields s) as (Hc & _ & _ & Hn & Hs & Hh & Hincl).
  split; [reflexivity |].
  do 5 (split; [assumption |]).
  do 2 (split; [rewrite Hmount; reflexivity |]).
  intros es c Hes Hrun.
  destruct (disabled_never_arms p es c He Hes Hrun) as (_ & Ht & _ & Hn').
  split; assumption.
Qed.

Lemma init_animation_disabled_witness :
  let p := Examples.props Examples.AB None false 0 in
  items p <> [] /\ isAnimationEnabled p = false /\
  init p (mount (Examples.props Examples.AB None true 0))
  = reset_timeout (mount (Examples.props Examples.AB None true 0)).
Proof.
  intros p. split; [discriminate |]. split; [reflexivity |].
  apply (init_animation_disabled p); [discriminate | reflexivity].
Defined.

(** C2 as stated fails: mounted with animation disabled, a two-item
    carousel has an empty window, not the rotation of its items, and its
    observer is not notified. *)
Lemma init_animation_disabled_counterexample :
  let p := Examples.props Examples.AB None false 0 in
  items p <> [] /\ isAnimationEnabled p = false /\
  rotation (items p) (startIndex p) = ["A"; "B"]%string /\
  copiedItems (mount p) = [] /\
  copiedItems (mount p) <> rotation (items p) (startIndex p) /\
  shown (mount p) = [].
Proof.
  cbv zeta. split; [discriminate |].
  repeat split; try (vm_compute; reflexivity).
  vm_compute. discriminate.
Qed.

(** C3 (the code departs from the claim). Three items replace the default
    item [D].  When the transition completes the default item is dropped,
    the flag is cleared and the observer receives [(A, 0)]; but the timer
    is armed again with counter [0 + 1], not with the decremented counter,
    so that the next advance sends [(B, 2)] where the claim has [(B, 1)].
    Lemma [default_transition_skips_a_counter] shows the same gap for every
    collection of two or more items. *)
Theorem fallback_rearms_with_raw_counter :
  let p0 := Examples.props [] (Some "D"%string) true 0 in
  let p1 := Examples.props Examples.ABC (Some "D"%string) true 0 in
  let c0 := (p0, mount p0) in
  observe (run [ItemsChange p1] c0)
  = Some (["D"; "A"; "B"; "C"]%string, true, [Num 0], []) /\
  observe (run [ItemsChange p1; Fire 1%positive; Complete 0] c0)
  = Some (["A"; "B"; "C"]%string, false, [Num 1],
          [(Some "A"%string, Num 0)]) /\
  observe (run [ItemsChange p1; Fire 1%positive; Complete 0;
                Fire 2%positive; Complete 0] c0)
  = Some (["B"; "C"; "A"]%string, false, [Num 2],
          [(Some "A"%string, Num 0); (Some "B"%string, Num 2)]).
Proof.
  cbv zeta. split; [| split]; vm_compute; reflexivity.
Qed.

(** C4 (amended). Along every run in which [init] (an item change or
    [startOver]) never happens while an animation is in flight, at most one
    timer is pending and it is the one held in [animationTimeout];
    [clear] cancels it; [init] cancels it and ends with either no timer and
    a null handle, or exactly the one timer it has just created. *)
Theorem single_timer_when_settled {Item Element : Type}
    (p : Props Item Element) (es : list (Event Item Element))
    (c : Props Item Element * State Item Element) :
  run_settled es (p, mount p) = Some c ->
  (length (timers (snd c)) <= 1)%nat /\
  (forall t, In t (timers (snd c)) ->
             animationTimeout (snd c) = Some (timer_id t)) /\
  timers (clear (snd c)) = [] /\
  forall q,
    (forall t, In t (timers (snd c)) -> ~ In t (timers (init q (snd c)))) /\
    ((timers (init q (snd c)) = [] /\
      animationTimeout (init q (snd c)) = None) \/
     (exists t, timers (init q (snd c)) = [t] /\
                timer_id t = next_timer (snd c) /\
                animationTimeout (init q (snd c)) = Some (timer_id t))).
Proof.
  intros Hrun.
  pose proof (run_settled_single p es c Hrun) as [Hlen Hheld].
  assert (Hfresh : timers_fresh (snd c)).
  { apply reachable_fresh. exists p, es.
    apply run_where_run with (ok := settled). exact Hrun. }
  split; [lia |].
  split; [apply Forall_forall; exact Hheld |].
  split; [apply clear_no_timer; exact Hheld |].
  intros q.
  pose proof (init_rearms q (snd c) Hheld) as Hre.
  split; [| exact Hre].
  intros t Hold Hnew.
  destruct Hfresh as [Hlt _]. rewrite Forall_forall in Hlt.
  specialize (Hlt t Hold).
  destruct Hre as [[Hnil _] | (t' & Hone & Hid & _)].
  - rewrite Hnil in Hnew. destruct Hnew.
  - rewrite Hone in Hnew. destruct Hnew as [-> | []]. lia.
Qed.

Lemma single_timer_when_settled_witness :
  let p := Examples.props Examples.AB None true 0 in
  exists c,
    run_settled [Fire 1%positive; Complete 0; StartOver; Clear] (p, mount p)
    = Some c /\
    (length (timers (snd c)) <= 1)%nat.
Proof.
  intros p. eexists. split; [vm_compute; reflexivity |].
  apply (single_timer_when_settled p
           [Fire 1%positive; Complete 0; StartOver; Clear]).
  vm_compute. reflexivity.
Defined.

(** C4 as stated fails: when [startOver] is called while an animation is
    in flight, the completion of that animation arms a second timer next to
    the one armed by [init]; and [clear] leaves the handle of the timer it
    cancels in [animationTimeout]. *)
Lemma single_timer_counterexample :
  let p := Examples.props Examples.AB None true 0 in
  (exists c,
     run [Fire 1%positive; StartOver; Complete 0] (p, mount p) = Some c /\
     map timer_id (timers (snd c)) = [2%positive; 3%positive] /\
     length (timers (snd c)) = 2%nat) /\
  animationTimeout (mount p) = Some 1%positive /\
  timers (clear (mount p)) = [] /\
  animationTimeout (clear (mount p)) = Some 1%positive.
Proof.
  cbv zeta. split.
  - eexists. split; [vm_compute; reflexivity |].
    split; vm_compute; reflexivity.
  - repeat split; vm_compute; reflexivity.
Qed.

(** C5 (amended). With at most one item in every collection supplied, and
    no (re-)initialisation while an animation is in flight, the only timer
    ever pending is the one of the transition out of the default item: its
    window is the default item followed by the single item of the last
    render, its delay is 100 ms, and the default item is still flagged.
    Once that flag is cleared no timer is pending. *)
Theorem single_item_only_fallback_timer {Item Element : Type}
    (p : Props Item Element) (es : list (Event Item Element))
    (c : Props Item Element * State Item Element) :
  at_most_one_item p = true ->
  all_props at_most_one_item es = true ->
  run_settled es (p, mount p) = Some c ->
  (forall t, In t (timers (snd c)) ->
             fallback_timer (fst c) t /\
             isShowDefaultItemBefore (snd c) = true) /\
  (isShowDefaultItemBefore (snd c) = false -> timers (snd c) = []).
Proof.
  intros Hp Hes Hrun.
  apply (run_where_and _ _ _ _ _ Hrun) in Hes.
  assert (Hinv : only_fallback c).
  { apply (run_where_invariant _ only_fallback) with (3 := Hes).
    - intros e c1 c2. apply step_only_fallback.
    - apply mount_only_fallback. exact Hp. }
  destruct Hinv as (_ & _ & Hflag & Hts & _).
  split.
  - intros t Hin. split.
    + rewrite Forall_forall in Hts. auto.
    + apply Hflag. left. intros E. rewrite E in Hin. destruct Hin.
  - intros Hf. destruct (timers (snd c)) as [| t ts] eqn:E; [reflexivity |].
    rewrite Hflag in Hf; [discriminate |]. left. discriminate.
Qed.

Lemma single_item_only_fallback_timer_witness :
  let p0 := Examples.props [] (Some "D"%string) true 0 in
  let p1 := Examples.props ["A"%string] (Some "D"%string) true 0 in
  let es := [ItemsChange p1; Fire 1%positive; Complete 0] in
  at_most_one_item p0 = true /\
  all_props at_most_one_item es = true /\
  exists c,
    run_settled es (p0, mount p0) = Some c /\
    (isShowDefaultItemBefore (snd c) = false -> timers (snd c) = []).
Proof.
  intros p0 p1 es. split; [reflexivity |]. split; [reflexivity |].
  eexists. split; [vm_compute; reflexivity |].
  apply (single_item_only_fallback_timer p0 es);
    vm_compute; reflexivity.
Defined.

(** C5 as stated fails: when a single item replaces the default item, the
    window holds two elements and a timer is set. *)
Lemma single_item_counterexample :
  let p0 := Examples.props [] (Some "D"%string) true 0 in
  let p1 := Examples.props ["A"%string] (Some "D"%string) true 0 in
  exists s,
    run [ItemsChange p1] (p0, mount p0) = Some (p1, s) /\
    (length (items p1) <= 1)%nat /\
    copiedItems s = ["D"; "A"]%string /\
    map timer_lastItems (timers s) = [["D"; "A"]%string] /\
    map timer_delay (timers s) = [100] /\
    animationTimeout s = Some 1%positive.
Proof.
  cbv zeta. eexists. split; [vm_compute; reflexivity |].
  split; [simpl; lia |].
  repeat split; vm_compute; reflexivity.
Qed.

(** C6 (amended). With animation enabled and a non-empty collection, in
    every state the carousel can reach, after any events whatever (advances
    included), in which the transition out of the default item is not due
    (no default item is supplied, or none is flagged): [startOver] is
    [clear] followed by [init], cancels the timer held in
    [animationTimeout], sets the Rotation Window to the rotation of the
    items, so that the Visible Item is the item at index
    [startIndex mod length], and notifies the observer of it. *)
Theorem startOver_resets_visible_item {Item Element : Type}
    (p0 p : Props Item Element) (es : list (Event Item Element))
    (s : State Item Element) :
  run es (p0, mount p0) = Some (p, s) ->
  items p <> [] -> isAnimationEnabled p = true ->
  defaultItem p = None \/ isShowDefaultItemBefore s = false ->
  onStartOver p s = init p (clear s) /\
  (forall h, animationTimeout s = Some h ->
             find_timer h (onStartOver p s) = None) /\
  copiedItems (onStartOver p s) = rotation (items p) (startIndex p) /\
  exists x,
    get (items p)
      (Z.to_nat (startIndex p mod Z.of_nat (length (items p)))) = Some x /\
    visible (onStartOver p s) = Some x /\
    (onShow p = true ->
     shown (onStartOver p s) = shown s ++ [(Some x, Num (startIndex p))]).
Proof.
  intros Hrun Hne He Hf.
  assert (Hfresh : timers_fresh s)
    by (apply (reachable_fresh (p, s)); exists p0, es; exact Hrun).
  destruct (startOver_normal p s Hfresh Hne He Hf) as (Hw & Hsh & Hcancel).
  split; [reflexivity |]. split; [exact Hcancel |]. split; [exact Hw |].
  assert (Hn : 0 < Z.of_nat (length (items p)))
    by (destruct (items p); simpl; [easy | lia]).
  assert (Hm := Z.mod_pos_bound (startIndex p) _ Hn).
  destruct (nth_error (items p)
              (Z.to_nat (startIndex p mod Z.of_nat (length (items p)))))
    as [x |] eqn:Hx; [| apply nth_error_None in Hx; lia].
  assert (Hv : get (rotation (items p) (startIndex p)) 0 = Some x).
  { rewrite rotation_shift by assumption. unfold get.
    rewrite shift_left_hd by lia. exact Hx. }
  exists x. split; [exact Hx |].
  split; [unfold visible; rewrite Hw; exact Hv |].
  intros Ho. rewrite Hsh, Ho, Hv. reflexivity.
Qed.

Lemma startOver_resets_visible_item_witness :
  let p0 := Examples.props [] (Some "D"%string) true 0 in
  let p := Examples.props Examples.ABC (Some "D"%string) true 1 in
  let es :=
    [ItemsChange p; Fire 1%positive; Complete 0; Fire 2%positive;
     Complete 0] in
  exists s,
    run es (p0, mount p0) = Some (p, s) /\
    items p <> [] /\ isAnimationEnabled p = true /\
    isShowDefaultItemBefore s = false /\
    visible s = Some "C"%string /\
    copiedItems (onStartOver p s) = rotation (items p) (startIndex p).
Proof.
  intros p0 p es.
  eexists. split; [vm_compute; reflexivity |].
  split; [discriminate |]. split; [reflexivity |].
  split; [vm_compute; reflexivity |].
  split; [vm_compute; reflexivity |].
  apply (startOver_resets_visible_item p0 p es).
  - vm_compute. reflexivity.
  - discriminate.
  - reflexivity.
  - right. vm_compute. reflexivity.
Defined.

(** C6 as stated fails: with animation disabled [startOver] displays
    nothing and notifies nobody; and while the transition out of the
    default item is pending it displays the default item first and
    notifies nobody. *)
Lemma startOver_counterexample :
  (let p := Examples.props Examples.AB None false 0 in
   items p <> [] /\
   visible (onStartOver p (mount p)) = None /\
   shown (onStartOver p (mount p)) = []) /\
  (let p0 := Examples.props [] (Some "D"%string) true 0 in
   let p1 := Examples.props Examples.AB (Some "D"%string) true 0 in
   exists s,
     run [ItemsChange p1] (p0, mount p0) = Some (p1, s) /\
     visible (onStartOver p1 s) = Some "D"%string /\
     get (items p1) 0 = Some "A"%string /\
     shown (onStartOver p1 s) = []).
Proof.
  cbv zeta. split.
  - split; [discriminate |]. split; vm_compute; reflexivity.
  - eexists. split; [vm_compute; reflexivity |].
    repeat split; vm_compute; reflexivity.
Qed.

(** C7. For a non-empty item collection and any integer start index, the
    window computed by [init] is a permutation of the collection, its first
    element is the item at index [((startIndex % n) + n) % n], and every
    intermediate value is an ordinary number (no [NaN], nothing thrown).
    The index is the one the formula gives in the integers, with the
    remainder of JavaScript; for an array it is also what JavaScript
    computes, no sum being rounded. *)
Theorem rotation_permutation_first {A : Type} (l : list A) (k : Z) :
  l <> [] ->
  let n := Z.of_nat (length l) in
  Permutation (rotation l k) l /\
  exists (i : Z) (x : A),
    start_index l k <> NaN /\
    Z.rem (Z.rem k n + n) n = i /\
    (n <= max_length ->
     rem (add (rem (Num k) (Num n)) (Num n)) (Num n) = Num i) /\
    0 <= i < n /\
    get l (Z.to_nat i) = Some x /\
    get (rotation l k) 0 = Some x.
Proof.
  intros Hl n.
  assert (Hn : 0 < n) by (unfold n; destruct l; simpl; [easy | lia]).
  assert (Hm := Z.mod_pos_bound k _ Hn).
  assert (Hb := rem_bounds k n Hn).
  rewrite rotation_shift by assumption. fold n.
  split; [apply shift_left_perm |].
  destruct (nth_error l (Z.to_nat (k mod n))) as [x |] eqn:Hx;
    [| apply nth_error_None in Hx; lia].
  exists (k mod n), x.
  unfold start_index, rem, add, get. fold n.
  destruct (Z.eqb_spec n 0) as [? | _]; [lia |].
  split; [discriminate |].
  split; [apply rem_wrap; exact Hn |].
  split.
  { intros Hmax. apply max_length_exact in Hmax.
    rewrite round_exact by lia. rewrite rem_wrap by exact Hn.
    reflexivity. }
  split; [exact Hm |].
  split; [exact Hx |].
  rewrite shift_left_hd by lia. exact Hx.
Qed.

Lemma rotation_permutation_first_witness :
  [10; 20; 30] <> [] /\
  Permutation (rotation [10; 20; 30] (-5)) [10; 20; 30].
Proof.
  split; [discriminate |].
  apply (rotation_permutation_first [10; 20; 30] (-5)). discriminate.
Defined.

(** C8 (amended). Initialising with an empty collection and no default
    item computes an empty rotation without error, notifies nobody, creates
    no timer and leaves the Rotation Window as it was: empty at mount, the
    previous window otherwise. *)
Theorem init_empty_without_default {Item Element : Type}
    (p : Props Item Element) (s : State Item Element) :
  items p = [] -> defaultItem p = None ->
  start_index (items p) (startIndex p) = NaN /\
  rotation (items p) (startIndex p) = [] /\
  init p s = reset_timeout s /\
  copiedItems (init p s) = copiedItems s /\
  shown (init p s) = shown s /\
  next_timer (init p s) = next_timer s /\
  copiedItems (mount p) = [] /\
  shown (mount p) = [].
Proof.
  intros Hi Hd.
  unfold mount. rewrite !init_nothing by auto.
  destruct (reset_timeout_fields s) as (Hc & _ & _ & Hn & Hs & _).
  rewrite Hi. repeat split; auto.
Qed.

Lemma init_empty_without_default_witness :
  let p := Examples.props [] None true 0 in
  items p = [] /\ defaultItem p = None /\
  copiedItems (mount p) = [] /\ shown (mount p) = [].
Proof.
  intros p. split; [reflexivity |]. split; [reflexivity |].
  destruct (init_empty_without_default p initial_state eq_refl eq_refl)
    as (_ & _ & _ & _ & _ & _ & Hc & Hs).
  split; assumption.
Defined.

(** C8 as stated fails: when a two-item collection is replaced by an empty
    one and no default item is supplied, the old window stays displayed. *)
Lemma init_empty_without_default_counterexample :
  let p1 := Examples.props Examples.AB None true 0 in
  let p0 := Examples.props [] None true 0 in
  exists s,
    run [ItemsChange p0] (p1, mount p1) = Some (p0, s) /\
    copiedItems s = ["A"; "B"]%string /\
    copiedItems s <> [] /\
    map snd (render p0 s) = ["A"; "B"]%string.
Proof.
  cbv zeta. eexists. split; [vm_compute; reflexivity |].
  split; [vm_compute; reflexivity |].
  split; [vm_compute; discriminate |].
  vm_compute. reflexivity.
Qed.

(** C9 (amended). When [init] does not start the transition out of the
    default item (the Was-Showing-Default flag is false), with [n >= 2]
    items in an array, an in-range start index and animation enabled: the
    [n] advances that follow all succeed, and after them the Visible Item
    is again the one displayed by [init].  [init] tells the observer of its
    own render that item with the start index.  The advances tell the
    observer held by the memoized [startAnimation], if it holds one: it
    receives [n] notifications, the last of which carries that item with
    the initial counter modulo [n].  The state [s] in which [init] runs is
    any state whose timer handles were allocated in increasing order, as
    they are in [initial_state] and in every reachable state
    ([reachable_fresh]). *)
Theorem full_cycle_returns {Item Element : Type}
    (p : Props Item Element) (s : State Item Element) :
  timers_fresh s -> isShowDefaultItemBefore s = false ->
  isAnimationEnabled p = true ->
  (2 <= length (items p))%nat ->
  Z.of_nat (length (items p)) <= max_length ->
  0 <= startIndex p < Z.of_nat (length (items p)) ->
  exists x s' middle,
    visible (init p s) = Some x /\
    shown (init p s)
    = shown s ++ (if onShow p then [(Some x, Num (startIndex p))] else []) /\
    advances (length (items p)) (p, init p s) = Some (p, s') /\
    visible s' = Some x /\
    length middle = (length (items p) - 1)%nat /\
    shown s'
    = shown (init p s) ++
      (if onShow (useCallback p s)
       then middle ++
            [(Some x, Num (startIndex p mod Z.of_nat (length (items p))))]
       else []).
Proof.
  intros Hfresh Hf He Hn Hmax Hk.
  apply max_length_exact in Hmax.
  pose proof (useCallback_enabled p s He) as He'.
  destruct (init_armed p s Hfresh Hf He Hn) as [Harmed Hsh0].
  set (w := rotation (items p) (startIndex p)) in *.
  assert (Hlw : length w = length (items p)) by apply rotation_length.
  destruct (advances_armed (length (items p)) (useCallback p s) p w
              (startIndex p) (init p s) Harmed He')
    as (s' & Hrun & Harmed' & Hsh'); [lia | lia |].
  destruct w as [| x w'] eqn:Hw; [simpl in Hlw; lia |].
  rewrite <- Hw in *.
  assert (Hx : get w 0 = Some x) by (rewrite Hw; reflexivity).
  assert (Hcycle : Nat.iter (length (items p)) shifted w = w).
  { rewrite iter_shifted by lia. rewrite <- Hlw. apply shift_left_all. }
  destruct Harmed as (_ & _ & Hwin & _).
  destruct Harmed' as (_ & _ & Hwin' & _).
  rewrite Hx in Hsh0.
  destruct (length (items p)) as [| m] eqn:Hm; [lia |].
  rewrite seq_S, map_app in Hsh'. cbn [map] in Hsh'.
  change (1 + m)%nat with (S m) in Hsh'.
  rewrite Hcycle, Hx, Hlw, counter_after_exact in Hsh' by lia.
  replace ((startIndex p + Z.of_nat (S m)) mod Z.of_nat (S m))
    with (startIndex p mod Z.of_nat (S m)) in Hsh'
    by (symmetry;
        replace (startIndex p + Z.of_nat (S m))
          with (startIndex p + 1 * Z.of_nat (S m)) by ring;
        apply Z_mod_plus_full).
  eexists x, s', _.
  split; [unfold visible; rewrite Hwin; exact Hx |].
  split; [exact Hsh0 |].
  split; [exact Hrun |].
  split; [unfold visible; rewrite Hwin', Hcycle; exact Hx |].
  split; [| exact Hsh'].
  rewrite length_map, length_seq. lia.
Qed.

Lemma full_cycle_returns_witness :
  let p := Examples.props Examples.ABC None true 1 in
  timers_fresh (@initial_state string string) /\
  exists x s',
    visible (init p initial_state) = Some x /\
    advances 3 (p, init p initial_state) = Some (p, s') /\
    visible s' = Some x.
Proof.
  intros p.
  assert (Hfresh : timers_fresh (@initial_state string string))
    by (split; [constructor | discriminate]).
  split; [exact Hfresh |].
  destruct (full_cycle_returns p initial_state Hfresh eq_refl eq_refl)
    as (x & s' & middle & Hv & _ & Hrun & Hv' & _).
  - simpl. lia.
  - unfold max_length. simpl. lia.
  - simpl. lia.
  - exists x, s'. auto.
Defined.

(** C9 as stated fails: when two items replace the default item [D],
    [init] displays [D] first; the two advances that follow (the transition
    out of [D], then one rotation) leave [B] displayed, not [D].  And the
    advances tell the observer of the render that created
    [startAnimation]: when the observer is supplied later, together with
    new items, the two advances of a full cycle tell it nothing. *)
Lemma full_cycle_counterexample :
  (let p0 := Examples.props [] (Some "D"%string) true 0 in
   let p1 := Examples.props Examples.AB (Some "D"%string) true 0 in
   exists s0 s2,
     run [ItemsChange p1] (p0, mount p0) = Some (p1, s0) /\
     copiedItems s0 = ["D"; "A"; "B"]%string /\
     visible s0 = Some "D"%string /\
     advances 2 (p1, s0) = Some (p1, s2) /\
     visible s2 = Some "B"%string /\
     shown s2 = [(Some "A"%string, Num 0); (Some "B"%string, Num 0)]) /\
  (let p0 := Examples.unobserved (Examples.props Examples.AB None true 0) in
   let p1 := Examples.props ["B"; "A"]%string None true 0 in
   exists s0 s2,
     run [ItemsChange p1] (p0, mount p0) = Some (p1, s0) /\
     onShow p1 = true /\
     shown s0 = [(Some "B"%string, Num 0)] /\
     advances 2 (p1, s0) = Some (p1, s2) /\
     visible s2 = Some "B"%string /\
     shown s2 = [(Some "B"%string, Num 0)]).
Proof.
  cbv zeta. split.
  - eexists _, _.
    split; [vm_compute; reflexivity |].
    split; [vm_compute; reflexivity |].
    split; [vm_compute; reflexivity |].
    split; [vm_compute; reflexivity |].
    split; vm_compute; reflexivity.
  - eexists _, _.
    split; [vm_compute; reflexivity |].
    split; [reflexivity |].
    split; [vm_compute; reflexivity |].
    split; [vm_compute; reflexivity |].
    split; vm_compute; reflexivity.
Qed.

(** C10. In every state the rendered stack is the image under [renderItem]
    of the first [min 3 (length window)] elements of the window, in window
    order and keyed by position; it does not depend on any element past the
    third. *)
Theorem render_first_three {Item Element : Type}
    (p : Props Item Element) (s : State Item Element) :
  map snd (render p s)
  = map (renderItem p)
      (firstn (Nat.min 3 (length (copiedItems s))) (copiedItems s)) /\
  map fst (render p s) = seq 0 (Nat.min 3 (length (copiedItems s))) /\
  forall s' : State Item Element,
    firstn 3 (copiedItems s') = firstn 3 (copiedItems s) ->
    render p s' = render p s.
Proof.
  unfold render. rewrite slice_first_three.
  destruct (mapi_fst_snd (renderItem p) (firstn 3 (copiedItems s)))
    as [Hk Hv].
  rewrite Hk, Hv, length_firstn. repeat split.
  - f_equal.
    destruct (Nat.le_gt_cases 3 (length (copiedItems s))) as [Hle | Hgt].
    + rewrite Nat.min_l by assumption. reflexivity.
    + rewrite Nat.min_r by lia.
      rewrite firstn_all. apply firstn_all2. lia.
  - intros s' Hs'. rewrite slice_first_three, Hs'. reflexivity.
Qed.

(** * Further properties of the component *)

(** ** Rotations of a collection *)

Section Rotations.

Context {A : Type}.
Implicit Types l w : list A.

Lemma mod_succ (z n : Z) :
  0 < n ->
  (z mod n + 1 < n /\ (z + 1) mod n = z mod n + 1) \/
  (z mod n + 1 = n /\ (z + 1) mod n = 0).
Proof.
  intros Hn.
  pose proof (Z.mod_pos_bound z n Hn) as Hb.
  rewrite <- (Z.add_mod_idemp_l z 1 n) by lia.
  destruct (Z.lt_ge_cases (z mod n + 1) n) as [Hlt | Hge].
  - left. split; [exact Hlt |]. apply Z.mod_small. lia.
  - right. assert (E : z mod n + 1 = n) by lia.
    split; [exact E |]. rewrite E. apply Z_mod_same_full.
Qed.

(** One more left rotation moves the rotation index by one, modulo the
    length. *)
Lemma shifted_rotation l (z : Z) :
  l <> [] ->
  shifted (shift_left (Z.to_nat (z mod Z.of_nat (length l))) l)
  = shift_left (Z.to_nat ((z + 1) mod Z.of_nat (length l))) l.
Proof.
  intros Hl.
  assert (Hn : 0 < Z.of_nat (length l)) by (destruct l; simpl; [easy | lia]).
  pose proof (Z.mod_pos_bound z _ Hn) as Hb.
  rewrite shifted_shift_left by lia.
  destruct (mod_succ z _ Hn) as [[_ ->] | [E ->]].
  - f_equal. lia.
  - replace (S (Z.to_nat (z mod Z.of_nat (length l)))) with (length l) by lia.
    rewrite shift_left_all. symmetry. apply shift_left_0.
Qed.

Lemma iter_shifted_rotation (j : nat) l (z : Z) :
  l <> [] ->
  Nat.iter j shifted (shift_left (Z.to_nat (z mod Z.of_nat (length l))) l)
  = shift_left (Z.to_nat ((z + Z.of_nat j) mod Z.of_nat (length l))) l.
Proof.
  intros Hl. induction j as [| j IH].
  - simpl. rewrite Z.add_0_r. reflexivity.
  - simpl Nat.iter. rewrite IH, shifted_rotation by assumption.
    do 3 f_equal. lia.
Qed.

Lemma rotation_is_rotation l (k : Z) :
  l <> [] -> is_rotation l (rotation l k).
Proof.
  intros Hl.
  assert (Hn : 0 < Z.of_nat (length l)) by (destruct l; simpl; [easy | lia]).
  pose proof (Z.mod_pos_bound k _ Hn) as Hb.
  exists (Z.to_nat (k mod Z.of_nat (length l))).
  split; [lia | apply rotation_shift; assumption].
Qed.

Lemma shifted_is_rotation l w :
  is_rotation l w -> is_rotation l (shifted w).
Proof.
  intros (m & Hm & ->).
  rewrite shifted_shift_left by assumption.
  destruct (Nat.eq_dec (S m) (length l)) as [E | E].
  - exists 0%nat. split; [lia |].
    rewrite E, shift_left_all. symmetry. apply shift_left_0.
  - exists (S m). split; [lia | reflexivity].
Qed.

Lemma is_rotation_perm l w : is_rotation l w -> Permutation w l.
Proof.
  intros (m & _ & ->). apply shift_left_perm.
Qed.

(** The element [i] of a rotation. *)
Lemma rotation_nth_error l (k : Z) (i : nat) :
  l <> [] -> (i < length l)%nat ->
  nth_error (rotation l k) i
  = nth_error l (Z.to_nat ((k + Z.of_nat i) mod Z.of_nat (length l))).
Proof.
  intros Hl Hi.
  assert (Hn : 0 < Z.of_nat (length l)) by (destruct l; simpl; [easy | lia]).
  pose proof (Z.mod_pos_bound (k + Z.of_nat i) _ Hn) as Hb.
  rewrite rotation_shift by assumption.
  rewrite <- (shift_left_hd i)
    by (rewrite shift_left_length; exact Hi).
  rewrite <- iter_shifted by (rewrite shift_left_length; lia).
  rewrite iter_shifted_rotation by assumption.
  apply shift_left_hd. lia.
Qed.

End Rotations.

(** ** The rotation computed by [init] *)

(** X1. The rotation only depends on the start index modulo the number of
    items: adding the length, or any multiple of it, changes nothing, and
    the start index [0] gives the collection itself.  It keeps the length
    of any collection, the empty one included. *)
Theorem rotation_periodic {A : Type} (l : list A) (k j : Z) :
  length (rotation l k) = length l /\
  rotation l 0 = l /\
  rotation l (k + j * Z.of_nat (length l)) = rotation l k /\
  (l <> [] -> rotation l (k mod Z.of_nat (length l)) = rotation l k).
Proof.
  split; [apply rotation_length |].
  destruct l as [| a l']; [repeat split; reflexivity |].
  set (l := a :: l') in *.
  assert (Hl : l <> []) by discriminate.
  assert (Hn : 0 < Z.of_nat (length l)) by (simpl; lia).
  rewrite !rotation_shift by assumption.
  rewrite Z.mod_0_l, Z_mod_plus_full, Z.mod_mod by lia.
  repeat split. apply shift_left_0.
Qed.

(** X2. For a non-empty collection the element [i] of the rotation by [k]
    is the item at index [(k + i) mod n], for every integer [k]; and
    rotating a rotation adds the start indices. *)
Theorem rotation_nth_compose {A : Type} (l : list A) (j k : Z) :
  l <> [] ->
  (forall i : nat,
      (i < length l)%nat ->
      get (rotation l k) i
      = get l (Z.to_nat ((k + Z.of_nat i) mod Z.of_nat (length l)))) /\
  rotation (rotation l j) k = rotation l (j + k).
Proof.
  intros Hl.
  split; [intros i Hi; apply rotation_nth_error; assumption |].
  assert (Hn : 0 < Z.of_nat (length l)) by (destruct l; simpl; [easy | lia]).
  pose proof (Z.mod_pos_bound k _ Hn) as Hb.
  assert (Hl' : rotation l j <> []).
  { intros E. pose proof (rotation_length l j) as H.
    rewrite E in H. simpl in H. lia. }
  rewrite (rotation_shift (rotation l j)) by assumption.
  rewrite rotation_length.
  rewrite <- iter_shifted by (rewrite rotation_length; lia).
  rewrite !rotation_shift by assumption.
  rewrite iter_shifted_rotation by assumption.
  rewrite Z2Nat.id by lia.
  rewrite Z.add_mod_idemp_r by lia. reflexivity.
Qed.

Lemma rotation_nth_compose_witness :
  [10; 20; 30] <> [] /\
  rotation (rotation [10; 20; 30] 5) (-1) = rotation [10; 20; 30] (5 + -1).
Proof.
  split; [discriminate |].
  apply (rotation_nth_compose [10; 20; 30] 5 (-1)). discriminate.
Defined.

Lemma rotation_periodic_witness :
  [10; 20; 30] <> [] /\
  rotation [10; 20; 30] (7 mod Z.of_nat (length [10; 20; 30]))
  = rotation [10; 20; 30] 7.
Proof.
  split; [discriminate |].
  apply (rotation_periodic [10; 20; 30] 7 0). discriminate.
Defined.

(** ** The imperative handle *)

Lemma filter_twice {A : Type} (f : A -> bool) (l : list A) :
  filter f (filter f l) = filter f l.
Proof.
  induction l as [| x l IH]; simpl; [reflexivity |].
  destruct (f x) eqn:E; simpl; rewrite ?E, IH; reflexivity.
Qed.

(** X3. [clear] only touches the timers of the host: the window, the
    Was-Showing-Default flag, the handle, the animations in flight and the
    calls made to the observer are left as they are, and no timer is
    created.  With no handle stored it changes nothing at all, and calling
    it twice is calling it once. *)
Theorem clear_is_idempotent {Item Element : Type}
    (s : State Item Element) :
  clear (clear s) = clear s /\
  (animationTimeout s = None -> clear s = s) /\
  copiedItems (clear s) = copiedItems s /\
  isShowDefaultItemBefore (clear s) = isShowDefaultItemBefore s /\
  animationTimeout (clear s) = animationTimeout s /\
  animations (clear s) = animations s /\
  shown (clear s) = shown s /\
  next_timer (clear s) = next_timer s /\
  incl (timers (clear s)) (timers s) /\
  (forall h, animationTimeout s = Some h -> find_timer h (clear s) = None).
Proof.
  destruct (clear_fields s) as (Hc & Hf & Ha & Hn & Hs & Hh & Hincl).
  split.
  { unfold clear at 1. rewrite Hh.
    unfold clear, clearTimeout, set_timers.
    destruct (animationTimeout s) as [h |]; simpl; [| reflexivity].
    rewrite filter_twice. reflexivity. }
  split; [intros E; unfold clear; rewrite E; reflexivity |].
  do 7 (split; [assumption |]).
  intros h Hh'. unfold clear. rewrite Hh'. unfold find_timer. simpl.
  apply find_all_false. intros t Hin.
  apply filter_In in Hin as [_ Hin]. apply negb_true_iff. exact Hin.
Qed.

Lemma clear_is_idempotent_witness :
  let s := mount (Examples.props Examples.AB None true 0) in
  animationTimeout s = Some 1%positive /\
  find_timer 1%positive (clear s) = None.
Proof.
  intros s. split; [reflexivity |].
  apply (clear_is_idempotent s). reflexivity.
Defined.

(** X4. [startOver] and the effect run on an item change do exactly what
    [init] does alone, the second after the render that precedes it: the
    [clear] that precedes [init] is absorbed by the first lines of
    [init]. *)
Theorem startOver_is_init {Item Element : Type}
    (p : Props Item Element) (s : State Item Element) :
  onStartOver p s = init p s /\
  effect p s = init p (rendered p s) /\
  onStartOver p (onStartOver p s) = init p (init p s).
Proof.
  unfold onStartOver, effect. rewrite !init_clear. repeat split.
Qed.

(** X5. With no item and a default item, [init] shows the default item
    alone, whether animation is enabled or not: the window and the
    rendered stack hold just that item, the flag is set, the pending timer
    is cancelled, and neither the observer nor [setTimeout] is called. *)
Theorem init_shows_default_item {Item Element : Type}
    (p : Props Item Element) (s : State Item Element) (d : Item) :
  items p = [] -> defaultItem p = Some d ->
  copiedItems (init p s) = [d] /\
  render p (init p s) = [(0%nat, renderItem p d)] /\
  isShowDefaultItemBefore (init p s) = true /\
  shown (init p s) = shown s /\
  animationTimeout (init p s) = None /\
  next_timer (init p s) = next_timer s /\
  incl (timers (init p s)) (timers s) /\
  (forall h, animationTimeout s = Some h -> find_timer h (init p s) = None).
Proof.
  intros Hi Hd. rewrite (init_default p s d Hi Hd).
  destruct (reset_timeout_fields s) as (_ & _ & _ & Hn & Hs & Hh & Hincl).
  split; [reflexivity |]. split; [reflexivity |]. split; [reflexivity |].
  simpl. do 4 (split; [assumption |]).
  intros h Hh'. unfold find_timer, reset_timeout. simpl. rewrite Hh'. simpl.
  apply find_all_false. intros t Hin.
  apply filter_In in Hin as [_ Hin]. apply negb_true_iff. exact Hin.
Qed.

Lemma init_shows_default_item_witness :
  let p := Examples.props [] (Some "D"%string) false 0 in
  items p = [] /\ defaultItem p = Some "D"%string /\
  copiedItems (init p (mount (Examples.props Examples.AB None true 0)))
  = ["D"%string].
Proof.
  intros p. split; [reflexivity |]. split; [reflexivity |].
  apply (init_shows_default_item p _ "D"%string); reflexivity.
Defined.

(** X6. With exactly one item and animation enabled, on the normal path of
    [init] (no default item supplied, or none flagged): the window is that
    item whatever the start index, the observer receives the item with the
    start index as given, and no timer is created. *)
Theorem init_single_item {Item Element : Type}
    (p : Props Item Element) (s : State Item Element) (x : Item) :
  items p = [x] -> isAnimationEnabled p = true ->
  defaultItem p = None \/ isShowDefaultItemBefore s = false ->
  copiedItems (init p s) = [x] /\
  shown (init p s)
  = shown s ++ (if onShow p then [(Some x, Num (startIndex p))] else []) /\
  animationTimeout (init p s) = None /\
  next_timer (init p s) = next_timer s /\
  incl (timers (init p s)) (timers s).
Proof.
  intros Hi He Hf.
  assert (Hne : items p <> []) by (rewrite Hi; discriminate).
  rewrite (init_normal p s Hne He Hf). rewrite Hi, rotation_singleton.
  cbv zeta. change (1 <? length [x])%nat with false. cbv iota.
  destruct (reset_timeout_fields s) as (_ & _ & _ & Hn & Hs & Hh & Hincl).
  destruct (onShow p); simpl; rewrite Hs, ?app_nil_r; auto.
Qed.

Lemma init_single_item_witness :
  let p := Examples.props ["A"%string] None true 7 in
  items p = ["A"%string] /\ isAnimationEnabled p = true /\
  shown (init p initial_state) = [(Some "A"%string, Num 7)].
Proof.
  intros p. split; [reflexivity |]. split; [reflexivity |].
  apply (init_single_item p initial_state "A"%string);
    [reflexivity | reflexivity | left; reflexivity].
Defined.

(** ** What every event preserves *)

Section Preserved.

Context {Item Element : Type}.
Implicit Types (p q : Props Item Element) (s : State Item Element).
Implicit Types (c : Props Item Element * State Item Element).
Implicit Types (e : Event Item Element) (es : list (Event Item Element)).
Implicit Types (a : Animation Item Element) (w : list Item).

Lemma startAnimation_Forall (P : Timer Item Element -> Prop) p w k f s :
  Forall P (timers s) ->
  (forall h, P (mkTimer h p w k (delay_of p f))) ->
  Forall P (timers (startAnimation p w k f s)).
Proof.
  intros Hts Hnew. unfold startAnimation.
  destruct (negb (isAnimationEnabled p) || (length w <=? 1)%nat); simpl;
    [exact Hts |].
  apply Forall_app. split; [exact Hts |].
  constructor; [apply Hnew | constructor].
Qed.

(** The completion callback when no default item is flagged. *)
Lemma on_animation_end_steady a s :
  isShowDefaultItemBefore s = false ->
  on_animation_end a s
  = let w := shifted (anim_lastItems a) in
    let i :=
      rem (add (anim_counter a) (Num 1))
        (Num (Z.of_nat (length (anim_lastItems a)))) in
    let s1 :=
      if onShow (anim_props a) then call_onShow (get w 0) i s else s in
    let s2 := setCopiedItems w s1 in
    if (1 <? length w)%nat then
      startAnimation (anim_props a) w (add (anim_counter a) (Num 1)) None s2
    else s2.
Proof.
  intros Hf. unfold on_animation_end. rewrite Hf. reflexivity.
Qed.

(** [init] when the collection is not empty and no default item is
    flagged. *)
Lemma init_steady p s :
  items p <> [] -> isShowDefaultItemBefore s = false ->
  init p s
  = if isAnimationEnabled p then
      let w := rotation (items p) (startIndex p) in
      let s1 := setCopiedItems w (reset_timeout s) in
      let s2 :=
        if onShow p then call_onShow (get w 0) (Num (startIndex p)) s1
        else s1 in
      if (1 <? length (items p))%nat then
        startAnimation (useCallback p s) w (Num (startIndex p)) None s2
      else s2
    else reset_timeout s.
Proof.
  intros Hne Hf. destruct (isAnimationEnabled p) eqn:He.
  - apply init_normal; auto.
  - apply init_nothing; auto.
Qed.

(** *** The calls made to the observer *)

Lemma init_shown p s :
  exists l, shown (init p s) = shown s ++ l /\ (length l <= 1)%nat.
Proof.
  destruct (reset_timeout_fields s) as (_ & _ & _ & _ & Hs & _).
  unfold init.
  repeat match goal with
         | |- context [if ?b then _ else _] => destruct b
         end;
    try match goal with
        | |- context [startAnimation ?p ?w ?k ?f ?s0] =>
            destruct (startAnimation_fields p w k f s0) as (_ & _ & _ & ->)
        end;
    simpl; rewrite Hs;
    first [ exists []; rewrite app_nil_r; split; [reflexivity | simpl; lia]
          | eexists [_]; split; [reflexivity | simpl; lia] ].
Qed.

Lemma on_animation_end_shown a s :
  exists l,
    shown (on_animation_end a s) = shown s ++ l /\ (length l <= 1)%nat.
Proof.
  unfold on_animation_end.
  repeat match goal with
         | |- context [if ?b then _ else _] => destruct b
         end;
    try match goal with
        | |- context [startAnimation ?p ?w ?k ?f ?s0] =>
            destruct (startAnimation_fields p w k f s0) as (_ & _ & _ & ->)
        end;
    simpl;
    first [ exists []; rewrite app_nil_r; split; [reflexivity | simpl; lia]
          | eexists [_]; split; [reflexivity | simpl; lia] ].
Qed.

End Preserved.

(** X7. An event makes at most one call to the observer; a timer that
    fires and [clear] make none. *)
Theorem at_most_one_call_per_event {Item Element : Type}
    (e : Event Item Element)
    (c c' : Props Item Element * State Item Element) :
  step e c = Some c' ->
  exists l,
    shown (snd c') = shown (snd c) ++ l /\
    (length l <= 1)%nat /\
    match e with
    | Clear | Fire _ => l = []
    | _ => True
    end.
Proof.
  destruct c as [p s]. intros Hs.
  destruct (clear_fields s) as (_ & _ & _ & _ & Hcs & _).
  destruct e as [q | | | h | k]; simpl in Hs.
  - injection Hs as <-. simpl. unfold effect. rewrite init_clear.
    destruct (init_shown q (rendered q s)) as (l & Hl & Hlen).
    exists l. auto.
  - injection Hs as <-. simpl. unfold onStartOver. rewrite init_clear.
    destruct (init_shown p s) as (l & Hl & Hlen). exists l. auto.
  - injection Hs as <-. simpl. exists []. rewrite app_nil_r. auto.
  - destruct (find_timer h s); [| discriminate].
    injection Hs as <-. simpl. exists []. rewrite app_nil_r. auto.
  - destruct (nth_error (animations s) k) as [a |]; [| discriminate].
    injection Hs as <-. simpl.
    destruct (on_animation_end_shown a
                (set_animations (remove_nth k (animations s)) s))
      as (l & Hl & Hlen).
    exists l. auto.
Qed.

Lemma at_most_one_call_per_event_witness :
  let p := Examples.props Examples.AB None true 0 in
  exists c',
    step StartOver (p, mount p) = Some c' /\
    exists l,
      shown (snd c') = shown (mount p) ++ l /\ (length l <= 1)%nat.
Proof.
  intros p. eexists. split; [vm_compute; reflexivity |].
  destruct (at_most_one_call_per_event StartOver (p, mount p) _ eq_refl)
    as (l & Hl & Hlen & _).
  exists l. split; assumption.
Defined.

(** ** A carousel whose collection does not change *)

Section FixedProps.

Context {Item Element : Type}.
Implicit Types (p q : Props Item Element) (s : State Item Element).
Implicit Types (c : Props Item Element * State Item Element).
Implicit Types (e : Event Item Element) (es : list (Event Item Element)).
Implicit Types (a : Animation Item Element) (w : list Item).

(** *** The window is a rotation of the items *)

Lemma init_rotations p s :
  items p <> [] -> rotations_only p (p, s) ->
  rotations_only p (p, init p s).
Proof.
  intros Hne (_ & Hf & Hw & Hts & Has). simpl in *.
  destruct (reset_timeout_fields s) as (Hc & _ & Ha & _ & _ & _ & Hincl).
  assert (Hts' : Forall (fun t => is_rotation (items p) (timer_lastItems t))
                   (timers (reset_timeout s)))
    by (apply (incl_Forall Hincl); exact Hts).
  pose proof (rotation_is_rotation (items p) (startIndex p) Hne) as Hrot.
  split; [reflexivity |]. simpl.
  split; [rewrite init_flag by assumption; exact Hf |].
  rewrite (init_steady p s Hne Hf).
  destruct (isAnimationEnabled p).
  2:{ rewrite Hc, Ha. auto. }
  cbv zeta.
  set (w := rotation (items p) (startIndex p)) in *.
  set (s2 := if onShow p
             then call_onShow (get w 0) (Num (startIndex p))
                    (setCopiedItems w (reset_timeout s))
             else setCopiedItems w (reset_timeout s)).
  assert (Hc2 : copiedItems s2 = w)
    by (unfold s2; destruct (onShow p); reflexivity).
  assert (Hts2 : timers s2 = timers (reset_timeout s))
    by (unfold s2; destruct (onShow p); reflexivity).
  assert (Has2 : animations s2 = animations s)
    by (unfold s2; destruct (onShow p); simpl; exact Ha).
  destruct (1 <? length (items p))%nat.
  - destruct (startAnimation_fields (useCallback p s) w
                (Num (startIndex p)) None s2) as (-> & _ & -> & _).
    rewrite Hc2, Has2.
    split; [right; exact Hrot |]. split; [| exact Has].
    apply startAnimation_Forall; [rewrite Hts2; exact Hts' |].
    intros h. exact Hrot.
  - rewrite Hc2, Hts2, Has2. auto.
Qed.

Lemma on_animation_end_rotations p a s :
  isShowDefaultItemBefore s = false ->
  is_rotation (items p) (anim_lastItems a) ->
  Forall (fun t => is_rotation (items p) (timer_lastItems t)) (timers s) ->
  is_rotation (items p) (copiedItems (on_animation_end a s)) /\
  Forall (fun t => is_rotation (items p) (timer_lastItems t))
    (timers (on_animation_end a s)) /\
  animations (on_animation_end a s) = animations s.
Proof.
  intros Hf Ha Hts.
  pose proof (shifted_is_rotation _ _ Ha) as Hrot.
  rewrite (on_animation_end_steady a s Hf). cbv zeta.
  set (w := shifted (anim_lastItems a)) in *.
  set (i := rem (add (anim_counter a) (Num 1))
              (Num (Z.of_nat (length (anim_lastItems a))))).
  set (s2 := setCopiedItems w
               (if onShow (anim_props a)
                then call_onShow (get w 0) i s else s)).
  assert (Hts2 : timers s2 = timers s)
    by (unfold s2; destruct (onShow (anim_props a)); reflexivity).
  assert (Has2 : animations s2 = animations s)
    by (unfold s2; destruct (onShow (anim_props a)); reflexivity).
  destruct (1 <? length w)%nat.
  - destruct (startAnimation_fields (anim_props a) w
                (add (anim_counter a) (Num 1)) None s2)
      as (-> & _ & -> & _).
    split; [exact Hrot |]. split; [| exact Has2].
    apply startAnimation_Forall; [rewrite Hts2; exact Hts |].
    intros h. exact Hrot.
  - rewrite Hts2, Has2. auto.
Qed.

Lemma step_rotations p e c c' :
  items p <> [] ->
  event_props (fun _ => false) e = true ->
  rotations_only p c -> step e c = Some c' -> rotations_only p c'.
Proof.
  destruct c as [p0 s]. intros Hne He Hc Hs.
  pose proof Hc as (Hp & Hf & Hw & Hts & Has). simpl in *. subst p0.
  destruct (clear_fields s) as (Hcc & Hcf & Hca & _ & _ & _ & Hincl).
  destruct e as [q | | | h | k]; simpl in Hs, He; [discriminate | | | |].
  - injection Hs as <-. unfold onStartOver. rewrite init_clear.
    apply init_rotations; assumption.
  - injection Hs as <-.
    split; [reflexivity |]. simpl.
    split; [congruence |]. split; [rewrite Hcc; exact Hw |].
    split; [apply (incl_Forall Hincl); exact Hts | rewrite Hca; exact Has].
  - destruct (find_timer h s) as [t |] eqn:Hfind; [| discriminate].
    injection Hs as <-. apply find_timer_in in Hfind as [Hin _].
    split; [reflexivity |]. simpl.
    split; [exact Hf |]. split; [exact Hw |].
    split; [apply (incl_Forall (incl_filter _ _)); exact Hts |].
    apply Forall_app. split; [exact Has |].
    constructor; [| constructor].
    rewrite Forall_forall in Hts. apply Hts. exact Hin.
  - destruct (nth_error (animations s) k) as [a |] eqn:Hk; [| discriminate].
    injection Hs as <-.
    assert (Ha : is_rotation (items p) (anim_lastItems a)).
    { apply nth_error_In in Hk. rewrite Forall_forall in Has. auto. }
    destruct (on_animation_end_rotations p a
                (set_animations (remove_nth k (animations s)) s))
      as (Hw' & Hts' & Has'); try assumption.
    split; [reflexivity |].
    split; [apply on_animation_end_flag |].
    split; [right; exact Hw' |]. split; [exact Hts' |].
    simpl. rewrite Has'. simpl.
    apply (incl_Forall (remove_nth_incl k _)). exact Has.
Qed.

Lemma mount_rotations p : items p <> [] -> rotations_only p (p, mount p).
Proof.
  intros Hne. apply init_rotations; [exact Hne |].
  split; [reflexivity |]. simpl.
  split; [reflexivity |]. split; [left; reflexivity |].
  split; constructor.
Qed.

End FixedProps.

(** X8. As long as the items are those of the mount (a non-empty
    collection), through any sequence of [startOver], [clear], timers
    firing and animations completing, also completions of animations
    started before a [startOver]: the window is either still empty or a
    rotation of the items, hence a permutation of them, and so is every
    window carried by a pending timer. *)
Theorem window_is_rotation {Item Element : Type}
    (p : Props Item Element) (es : list (Event Item Element))
    (c : Props Item Element * State Item Element) :
  items p <> [] -> no_items_change es = true ->
  run es (p, mount p) = Some c ->
  (copiedItems (snd c) = [] \/
   (is_rotation (items p) (copiedItems (snd c)) /\
    Permutation (copiedItems (snd c)) (items p))) /\
  (forall t, In t (timers (snd c)) ->
             Permutation (timer_lastItems t) (items p)).
Proof.
  intros Hne Hes Hrun.
  apply (run_where_and _ _ _ _ _ Hrun) in Hes.
  assert (Hinv : rotations_only p c).
  { apply (run_where_invariant _ (rotations_only p)) with (3 := Hes).
    - intros e c1 c2 Hok. simpl in Hok. apply step_rotations; assumption.
    - apply mount_rotations. exact Hne. }
  destruct Hinv as (_ & _ & Hw & Hts & _).
  split.
  - destruct Hw as [Hw | Hw]; [left; exact Hw | right].
    split; [exact Hw | apply is_rotation_perm; exact Hw].
  - intros t Hin. rewrite Forall_forall in Hts.
    apply is_rotation_perm. auto.
Qed.

Lemma window_is_rotation_witness :
  let p := Examples.props Examples.ABC None true 1 in
  let es := [Fire 1%positive; StartOver; Complete 0; Fire 3%positive] in
  items p <> [] /\ no_items_change es = true /\
  exists c,
    run es (p, mount p) = Some c /\
    (forall t, In t (timers (snd c)) ->
               Permutation (timer_lastItems t) (items p)).
Proof.
  intros p es. split; [discriminate |]. split; [reflexivity |].
  eexists. split; [vm_compute; reflexivity |].
  apply (window_is_rotation p es).
  - discriminate.
  - reflexivity.
  - vm_compute. reflexivity.
Defined.

(** ** The observer is told each item with its index *)

Section Indexed.

Context {Item Element : Type}.
Implicit Types (p q : Props Item Element) (s : State Item Element).
Implicit Types (c : Props Item Element * State Item Element).
Implicit Types (e : Event Item Element) (es : list (Event Item Element)).
Implicit Types (a : Animation Item Element) (w : list Item).

Lemma indexed_snapshot_weaken (l : list Item) (b b' : Z) w (k : number) :
  b <= b' -> indexed_snapshot l b w k -> indexed_snapshot l b' w k.
Proof.
  intros Hb (z & Hz & Hz0 & Hw). exists z. repeat split; auto; lia.
Qed.

Lemma init_indexed p (b : Z) s :
  0 <= startIndex p < Z.of_nat (length (items p)) ->
  Z.of_nat (length (items p)) <= b ->
  notifications_indexed p b (p, s) ->
  notifications_indexed p b (p, init p s).
Proof.
  intros Hk Hb (_ & Hf & Hts & Has & Hsh). simpl in *.
  assert (Hne : items p <> [])
    by (destruct (items p); simpl in Hk; [lia | easy]).
  destruct (reset_timeout_fields s) as (_ & _ & Ha & _ & Hs & _ & Hincl).
  assert (Hts' : Forall (fun t => indexed_snapshot (items p) b
                                    (timer_lastItems t) (timer_counter t))
                   (timers (reset_timeout s)))
    by (apply (incl_Forall Hincl); exact Hts).
  assert (Hsnap : indexed_snapshot (items p) b
                    (rotation (items p) (startIndex p))
                    (Num (startIndex p))).
  { exists (startIndex p). split; [reflexivity |]. split; [lia |].
    apply rotation_shift. exact Hne. }
  assert (Hnote : indexed_notification (items p)
                    (get (rotation (items p) (startIndex p)) 0,
                     Num (startIndex p))).
  { exists (startIndex p). cbn [fst snd].
    split; [reflexivity |]. split; [exact Hk |].
    unfold get. rewrite rotation_nth_error by (try assumption; lia).
    rewrite Z.add_0_r, Z.mod_small by lia. reflexivity. }
  split; [reflexivity |]. simpl.
  split; [rewrite init_flag by assumption; exact Hf |].
  rewrite (init_steady p s Hne Hf).
  destruct (isAnimationEnabled p).
  2:{ rewrite Ha, Hs. auto. }
  cbv zeta.
  set (w := rotation (items p) (startIndex p)) in *.
  set (s2 := if onShow p
             then call_onShow (get w 0) (Num (startIndex p))
                    (setCopiedItems w (reset_timeout s))
             else setCopiedItems w (reset_timeout s)).
  assert (Hts2 : timers s2 = timers (reset_timeout s))
    by (unfold s2; destruct (onShow p); reflexivity).
  assert (Has2 : animations s2 = animations s)
    by (unfold s2; destruct (onShow p); simpl; exact Ha).
  assert (Hsh2 : Forall (indexed_notification (items p)) (shown s2)).
  { unfold s2. destruct (onShow p); simpl; rewrite Hs; [| exact Hsh].
    apply Forall_app. split; [exact Hsh |].
    constructor; [exact Hnote | constructor]. }
  destruct (1 <? length (items p))%nat.
  - destruct (startAnimation_fields (useCallback p s) w
                (Num (startIndex p)) None s2) as (_ & _ & -> & ->).
    rewrite Has2. split; [| split; assumption].
    apply startAnimation_Forall; [rewrite Hts2; exact Hts' |].
    intros h. exact Hsnap.
  - rewrite Hts2, Has2. auto.
Qed.

(** As long as the counter is below [2 ^ 53] the completion callback
    counts exactly, and tells the item with its index. *)
Lemma on_animation_end_indexed p (b : Z) a s :
  items p <> [] -> b < 2 ^ 53 ->
  isShowDefaultItemBefore s = false ->
  indexed_snapshot (items p) b (anim_lastItems a) (anim_counter a) ->
  Forall (fun t => indexed_snapshot (items p) (b + 1) (timer_lastItems t)
                     (timer_counter t)) (timers s) ->
  Forall (indexed_notification (items p)) (shown s) ->
  Forall (fun t => indexed_snapshot (items p) (b + 1) (timer_lastItems t)
                     (timer_counter t)) (timers (on_animation_end a s)) /\
  animations (on_animation_end a s) = animations s /\
  Forall (indexed_notification (items p)) (shown (on_animation_end a s)).
Proof.
  intros Hne Hb Hf (z & Hz & Hz0 & Hw) Hts Hsh.
  assert (Hn : 0 < Z.of_nat (length (items p)))
    by (destruct (items p); simpl; [easy | lia]).
  pose proof (Z.mod_pos_bound (z + 1) _ Hn) as Hm.
  rewrite (on_animation_end_steady a s Hf). cbv zeta.
  rewrite Hz, Hw, shift_left_length, shifted_rotation by assumption.
  unfold add, rem. rewrite round_exact by lia.
  destruct (Z.eqb_spec (Z.of_nat (length (items p))) 0) as [? | _]; [lia |].
  rewrite Z.rem_mod_nonneg by lia.
  set (w := shift_left
              (Z.to_nat ((z + 1) mod Z.of_nat (length (items p)))) (items p)).
  set (i := Num ((z + 1) mod Z.of_nat (length (items p)))).
  set (s2 := setCopiedItems w
               (if onShow (anim_props a)
                then call_onShow (get w 0) i s else s)).
  assert (Hts2 : timers s2 = timers s)
    by (unfold s2; destruct (onShow (anim_props a)); reflexivity).
  assert (Has2 : animations s2 = animations s)
    by (unfold s2; destruct (onShow (anim_props a)); reflexivity).
  assert (Hsh2 : Forall (indexed_notification (items p)) (shown s2)).
  { unfold s2. destruct (onShow (anim_props a)); simpl; [| exact Hsh].
    apply Forall_app. split; [exact Hsh |].
    constructor; [| constructor].
    exists ((z + 1) mod Z.of_nat (length (items p))). cbn [fst snd].
    split; [reflexivity |]. split; [exact Hm |].
    unfold get, w. apply shift_left_hd. lia. }
  assert (Hsnap : indexed_snapshot (items p) (b + 1) w (Num (z + 1))).
  { exists (z + 1). split; [reflexivity |]. split; [lia | reflexivity]. }
  destruct (1 <? length w)%nat.
  - destruct (startAnimation_fields (anim_props a) w (Num (z + 1)) None s2)
      as (_ & _ & -> & ->).
    split; [| split; assumption].
    apply startAnimation_Forall; [rewrite Hts2; exact Hts |].
    intros h. exact Hsnap.
  - rewrite Hts2, Has2. auto.
Qed.

Lemma notifications_indexed_weaken p (b b' : Z) c :
  b <= b' -> notifications_indexed p b c -> notifications_indexed p b' c.
Proof.
  intros Hb (Hp & Hf & Hts & Has & Hsh).
  split; [exact Hp |]. split; [exact Hf |].
  split; [| split; [| exact Hsh]].
  - revert Hts. apply Forall_impl. intros t.
    apply indexed_snapshot_weaken. exact Hb.
  - revert Has. apply Forall_impl. intros a.
    apply indexed_snapshot_weaken. exact Hb.
Qed.

(** An event makes the largest counter go up by one at most. *)
Lemma step_indexed p (b : Z) e c c' :
  0 <= startIndex p < Z.of_nat (length (items p)) ->
  Z.of_nat (length (items p)) <= b -> b < 2 ^ 53 ->
  event_props (fun _ => false) e = true ->
  notifications_indexed p b c -> step e c = Some c' ->
  notifications_indexed p (b + 1) c'.
Proof.
  destruct c as [p0 s]. intros Hk Hb Hb' He Hc Hs.
  assert (Hc' : notifications_indexed p (b + 1) (p0, s))
    by (apply (notifications_indexed_weaken p b); [lia | exact Hc]).
  pose proof Hc as (Hp & Hf & _ & Has & _).
  pose proof Hc' as (_ & _ & Hts & Has' & Hsh). simpl in *. subst p0.
  assert (Hne : items p <> [])
    by (destruct (items p); simpl in Hk; [lia | easy]).
  destruct (clear_fields s) as (_ & Hcf & Hca & _ & Hcs & _ & Hincl).
  destruct e as [q | | | h | k]; simpl in Hs, He; [discriminate | | | |].
  - injection Hs as <-. unfold onStartOver. rewrite init_clear.
    apply init_indexed; [assumption | lia | exact Hc'].
  - injection Hs as <-.
    split; [reflexivity |]. simpl.
    split; [congruence |].
    split; [apply (incl_Forall Hincl); exact Hts |].
    split; [rewrite Hca; exact Has' | rewrite Hcs; exact Hsh].
  - destruct (find_timer h s) as [t |] eqn:Hfind; [| discriminate].
    injection Hs as <-. apply find_timer_in in Hfind as [Hin _].
    split; [reflexivity |]. simpl.
    split; [exact Hf |].
    split; [apply (incl_Forall (incl_filter _ _)); exact Hts |].
    split; [| exact Hsh].
    apply Forall_app. split; [exact Has' |].
    constructor; [| constructor].
    rewrite Forall_forall in Hts. apply (Hts t Hin).
  - destruct (nth_error (animations s) k) as [a |] eqn:Hk'; [| discriminate].
    injection Hs as <-.
    assert (Ha : indexed_snapshot (items p) b (anim_lastItems a)
                   (anim_counter a)).
    { apply nth_error_In in Hk'. rewrite Forall_forall in Has. auto. }
    destruct (on_animation_end_indexed p b a
                (set_animations (remove_nth k (animations s)) s))
      as (Hts' & Has'' & Hsh'); try assumption.
    split; [reflexivity |].
    split; [apply on_animation_end_flag |].
    split; [exact Hts' |]. split; [| exact Hsh'].
    simpl. rewrite Has''. simpl.
    apply (incl_Forall (remove_nth_incl k _)). exact Has'.
Qed.

Lemma run_indexed p es :
  0 <= startIndex p < Z.of_nat (length (items p)) ->
  forall (b : Z) c c',
    Z.of_nat (length (items p)) <= b ->
    b + Z.of_nat (length es) <= 2 ^ 53 ->
    no_items_change es = true ->
    notifications_indexed p b c -> run es c = Some c' ->
    notifications_indexed p (b + Z.of_nat (length es)) c'.
Proof.
  intros Hk. unfold run.
  induction es as [| e es IH]; intros b c c' Hb Hlen Hes Hc Hrun;
    simpl in Hrun.
  - injection Hrun as <-. simpl. rewrite Z.add_0_r. exact Hc.
  - destruct (step e c) as [c1 |] eqn:Hs; [| discriminate].
    apply andb_prop in Hes as [He Hes].
    change (length (e :: es)) with (S (length es)) in *.
    replace (b + Z.of_nat (S (length es)))
      with (b + 1 + Z.of_nat (length es)) by lia.
    apply (IH (b + 1) c1); [lia | lia | exact Hes | | exact Hrun].
    apply (step_indexed p b e c); try assumption. lia.
Qed.

Lemma mount_indexed p :
  0 <= startIndex p < Z.of_nat (length (items p)) ->
  notifications_indexed p (Z.of_nat (length (items p))) (p, mount p).
Proof.
  intros Hk. apply init_indexed; [exact Hk | lia |].
  split; [reflexivity |]. simpl.
  split; [reflexivity |]. repeat split; constructor.
Qed.

End Indexed.

(** X9. With a start index in range and the items of the mount, every
    call made to the observer, by [init] or by the completion of an
    animation (also one started before a [startOver]), carries an item
    together with its own index in the collection: [onShow(items[i], i)]
    with [0 <= i < n].  This holds as long as the counters are counted
    exactly, which they are while the number of items and of events stays
    within [2 ^ 53]. *)
Theorem onShow_item_matches_index {Item Element : Type}
    (p : Props Item Element) (es : list (Event Item Element))
    (c : Props Item Element * State Item Element) :
  0 <= startIndex p < Z.of_nat (length (items p)) ->
  Z.of_nat (length (items p)) + Z.of_nat (length es) <= 2 ^ 53 ->
  no_items_change es = true ->
  run es (p, mount p) = Some c ->
  forall (x : option Item) (i : number),
    In (x, i) (shown (snd c)) ->
    exists z,
      i = Num z /\ 0 <= z < Z.of_nat (length (items p)) /\
      x = get (items p) (Z.to_nat z) /\ x <> None.
Proof.
  intros Hk Hlen Hes Hrun x i Hin.
  assert (Hinv : notifications_indexed p
                   (Z.of_nat (length (items p)) + Z.of_nat (length es)) c).
  { apply (run_indexed p es Hk _ (p, mount p)); try assumption; [lia |].
    apply mount_indexed. exact Hk. }
  destruct Hinv as (_ & _ & _ & _ & Hsh).
  rewrite Forall_forall in Hsh.
  destruct (Hsh (x, i) Hin) as (z & Hz & Hz' & Hx). simpl in *.
  exists z. repeat split; try assumption; try lia.
  rewrite Hx. apply nth_error_Some. lia.
Qed.

Lemma onShow_item_matches_index_witness :
  let p := Examples.props Examples.ABC None true 1 in
  let es :=
    [Fire 1%positive; Complete 0; Fire 2%positive; StartOver; Complete 0;
     Fire 3%positive; Complete 0] in
  0 <= startIndex p < Z.of_nat (length (items p)) /\
  no_items_change es = true /\
  exists c,
    run es (p, mount p) = Some c /\
    shown (snd c)
    = [(Some "B", Num 1); (Some "C", Num 2); (Some "B", Num 1);
       (Some "A", Num 0); (Some "C", Num 2)]%string /\
    forall x i, In (x, i) (shown (snd c)) ->
                exists z, i = Num z /\ 0 <= z < 3 /\
                          x = get (items p) (Z.to_nat z) /\ x <> None.
Proof.
  intros p es. split; [simpl; lia |]. split; [reflexivity |].
  eexists. split; [vm_compute; reflexivity |].
  split; [vm_compute; reflexivity |].
  apply (onShow_item_matches_index p es).
  - simpl. lia.
  - simpl. lia.
  - reflexivity.
  - vm_compute. reflexivity.
Defined.

(** ** The rotation over time *)

(** X10. On the normal path of [init] with two or more items, animation
    enabled and a start index [k >= 0]: any number [j] of advances succeed;
    after them the window is the rotation by [k + j] and the Visible Item
    is the item at index [(k + j) mod n].  When the memoized
    [startAnimation] holds an observer, and as long as [k + j] is within
    [2 ^ 53], so that the counter is exact, the last call to the observer
    carried that item with that index. *)
Theorem advances_show_successive_items {Item Element : Type}
    (p : Props Item Element) (s : State Item Element) (j : nat) :
  timers_fresh s -> isShowDefaultItemBefore s = false ->
  isAnimationEnabled p = true ->
  (2 <= length (items p))%nat -> 0 <= startIndex p ->
  let i := (startIndex p + Z.of_nat j) mod Z.of_nat (length (items p)) in
  exists s',
    advances j (p, init p s) = Some (p, s') /\
    copiedItems s' = rotation (items p) (startIndex p + Z.of_nat j) /\
    visible s' = get (items p) (Z.to_nat i) /\
    visible s' <> None /\
    ((1 <= j)%nat -> onShow (useCallback p s) = true ->
     startIndex p + Z.of_nat j <= 2 ^ 53 ->
     exists older, shown s' = older ++ [(visible s', Num i)]).
Proof.
  intros Hfresh Hf He Hn Hk i. subst i.
  assert (Hne : items p <> [])
    by (destruct (items p); simpl in Hn; [lia | easy]).
  assert (Hpos : 0 < Z.of_nat (length (items p))) by lia.
  pose proof (Z.mod_pos_bound (startIndex p + Z.of_nat j) _ Hpos) as Hb.
  pose proof (useCallback_enabled p s He) as He'.
  destruct (init_armed p s Hfresh Hf He Hn) as [Harmed _].
  destruct (advances_armed j (useCallback p s) p _ (startIndex p) (init p s)
              Harmed He')
    as (s' & Hrun & Harmed' & Hsh);
    [rewrite rotation_length; exact Hn | exact Hk |].
  destruct Harmed' as (_ & _ & Hwin & _).
  assert (Hiter : forall m : nat,
             Nat.iter m shifted (rotation (items p) (startIndex p))
             = shift_left
                 (Z.to_nat ((startIndex p + Z.of_nat m)
                            mod Z.of_nat (length (items p)))) (items p)).
  { intros m. rewrite rotation_shift by assumption.
    apply iter_shifted_rotation. exact Hne. }
  assert (Hhd : forall m : nat,
             get (Nat.iter m shifted (rotation (items p) (startIndex p))) 0
             = get (items p)
                 (Z.to_nat ((startIndex p + Z.of_nat m)
                            mod Z.of_nat (length (items p))))).
  { intros m. rewrite Hiter. unfold get. apply shift_left_hd.
    pose proof (Z.mod_pos_bound (startIndex p + Z.of_nat m) _ Hpos). lia. }
  exists s'. split; [exact Hrun |].
  split; [rewrite Hwin, Hiter, rotation_shift by assumption; reflexivity |].
  assert (Hv : visible s'
               = get (items p)
                   (Z.to_nat ((startIndex p + Z.of_nat j)
                              mod Z.of_nat (length (items p)))))
    by (unfold visible; rewrite Hwin; apply Hhd).
  split; [exact Hv |].
  split; [rewrite Hv; apply nth_error_Some; lia |].
  intros Hj Ho Hexact. destruct j as [| m]; [lia |].
  rewrite Ho, seq_S, map_app, app_assoc in Hsh. cbn [map] in Hsh.
  change (1 + m)%nat with (S m) in Hsh.
  rewrite rotation_length, Hhd, counter_after_exact, <- Hv in Hsh
    by assumption.
  eexists. exact Hsh.
Qed.

Lemma advances_show_successive_items_witness :
  let p := Examples.props Examples.ABC None true 4 in
  timers_fresh (@initial_state string string) /\
  exists s',
    advances 5 (p, init p initial_state) = Some (p, s') /\
    visible s' = get (items p) (Z.to_nat ((4 + 5) mod 3)).
Proof.
  intros p.
  assert (Hfresh : timers_fresh (@initial_state string string))
    by (split; [constructor | discriminate]).
  split; [exact Hfresh |].
  destruct (advances_show_successive_items p initial_state 5 Hfresh
              eq_refl eq_refl)
    as (s' & Hrun & _ & Hv & _).
  - simpl. lia.
  - simpl. lia.
  - exists s'. split; [exact Hrun | exact Hv].
Defined.

(** ** The rotation does not stop by itself *)

Section Alive.

Context {Item Element : Type}.
Implicit Types (p q : Props Item Element) (s : State Item Element).
Implicit Types (c : Props Item Element * State Item Element).
Implicit Types (e : Event Item Element) (es : list (Event Item Element)).
Implicit Types (a : Animation Item Element) (w : list Item).

Lemma init_alive p s :
  isAnimationEnabled p = true -> (2 <= length (items p))%nat ->
  isShowDefaultItemBefore s = false -> closure s = Some p ->
  Forall (fun t => animationTimeout s = Some (timer_id t)) (timers s) ->
  animations s = [] ->
  alive p (p, init p s).
Proof.
  intros He Hn Hf Hc Hheld Ha.
  assert (Hne : items p <> [])
    by (destruct (items p); simpl in Hn; [lia | easy]).
  pose proof (reset_timeout_no_timer s Hheld) as Ht.
  destruct (reset_timeout_fields s) as (_ & Hf' & Ha' & _).
  rewrite Ha in Ha'.
  split; [reflexivity |]. simpl.
  split; [rewrite init_flag by assumption; exact Hf |].
  split; [rewrite init_closure; exact Hc |].
  rewrite (init_steady p s Hne Hf), He, (useCallback_own p s Hc). cbv zeta.
  destruct (Nat.ltb_spec 1 (length (items p))) as [_ | ?]; [| lia].
  rewrite startAnimation_armed
    by (try rewrite rotation_length; assumption).
  destruct (onShow p); simpl; rewrite Ht, Ha'; simpl;
    (split; [reflexivity |]);
    (split; [| constructor]);
    (constructor; [| constructor]); simpl;
    rewrite rotation_length; auto.
Qed.

Lemma on_animation_end_alive p a s :
  isAnimationEnabled p = true -> (2 <= length (items p))%nat ->
  isShowDefaultItemBefore s = false -> closure s = Some p ->
  anim_props a = p -> length (anim_lastItems a) = length (items p) ->
  timers s = [] -> animations s = [] ->
  alive p (p, on_animation_end a s).
Proof.
  intros He Hn Hf Hc Hp Hl Ht Ha.
  split; [reflexivity |]. simpl.
  split; [apply on_animation_end_flag |].
  split; [rewrite on_animation_end_closure; exact Hc |].
  rewrite (on_animation_end_steady a s Hf). cbv zeta.
  rewrite shifted_length, Hl, Hp.
  destruct (Nat.ltb_spec 1 (length (items p))) as [_ | ?]; [| lia].
  rewrite startAnimation_armed
    by (try rewrite shifted_length; try rewrite Hl; assumption).
  destruct (onShow p); simpl; rewrite Ht, Ha; simpl;
    (split; [reflexivity |]);
    (split; [| constructor]);
    (constructor; [| constructor]); simpl;
    rewrite shifted_length; auto.
Qed.

Lemma alive_cases p c :
  alive p c ->
  (exists t, timers (snd c) = [t] /\ animations (snd c) = [] /\
             animationTimeout (snd c) = Some (timer_id t) /\
             timer_props t = p /\ timer_delay t = displayTime p /\
             length (timer_lastItems t) = length (items p)) \/
  (exists a, timers (snd c) = [] /\ animations (snd c) = [a] /\
             anim_props a = p /\
             length (anim_lastItems a) = length (items p)).
Proof.
  intros (_ & _ & _ & Hone & Hts & Has).
  destruct (timers (snd c)) as [| t [| t' ts]] eqn:Et;
    destruct (animations (snd c)) as [| a [| a' l]] eqn:Ea;
    simpl in Hone; try lia.
  - right. exists a. inversion Has as [| ? ? (Hp & Hl) _]; subst. auto.
  - left. exists t. inversion Hts as [| ? ? (Hp & Hl & Hd & Hh) _]; subst.
    repeat split; auto.
Qed.

Lemma step_alive p e c c' :
  isAnimationEnabled p = true -> (2 <= length (items p))%nat ->
  settled e (snd c) && keeps_going e = true ->
  alive p c -> step e c = Some c' -> alive p c'.
Proof.
  destruct c as [p0 s]. intros He Hn Hok Hc Hs.
  apply andb_prop in Hok as [Hset Hgo].
  pose proof Hc as (Hp & Hf & Hcl & _). simpl in Hp, Hf, Hcl. subst p0.
  destruct (alive_cases p _ Hc)
    as [(t & Ht & Ha & Hh & Htp & Htd & Htl)
       | (a & Ht & Ha & Hap & Hal)]; simpl in *.
  - (* a timer is pending *)
    destruct e as [q | | | h | k]; simpl in Hs, Hgo, Hset;
      try discriminate.
    + injection Hs as <-. unfold onStartOver. rewrite init_clear.
      apply init_alive; try assumption.
      rewrite Ht. constructor; [exact Hh | constructor].
    + unfold find_timer in Hs. rewrite Ht in Hs. simpl in Hs.
      destruct (Pos.eqb_spec (timer_id t) h) as [E | _]; [| discriminate].
      injection Hs as <-.
      split; [reflexivity |]. simpl.
      rewrite Ht, Ha. simpl. rewrite E, Pos.eqb_refl. simpl.
      split; [exact Hf |]. split; [exact Hcl |]. split; [reflexivity |].
      split; [constructor |].
      constructor; [auto | constructor].
    + rewrite Ha in Hs. destruct k; discriminate.
  - (* an animation is in flight *)
    destruct e as [q | | | h | k]; simpl in Hs, Hgo, Hset;
      try discriminate.
    + rewrite Ha in Hset. discriminate.
    + unfold find_timer in Hs. rewrite Ht in Hs. discriminate.
    + rewrite Ha in Hs. destruct k as [| k]; [| destruct k; discriminate].
      injection Hs as <-. simpl.
      apply on_animation_end_alive; try assumption; reflexivity.
Qed.

Lemma mount_alive p :
  isAnimationEnabled p = true -> (2 <= length (items p))%nat ->
  alive p (p, mount p).
Proof.
  intros He Hn. apply init_alive; try assumption; try reflexivity.
  constructor.
Qed.

End Alive.

(** X11. With animation enabled and two or more items, as long as the
    items are not replaced, [clear] is not called and [startOver] is not
    called while an animation is in flight, the rotation never stops:
    in every state either exactly one timer is pending, held in
    [animationTimeout] and waiting [displayTime], or exactly one animation
    is in flight; the next event can always happen. *)
Theorem rotation_keeps_going {Item Element : Type}
    (p : Props Item Element) (es : list (Event Item Element))
    (c : Props Item Element * State Item Element) :
  isAnimationEnabled p = true -> (2 <= length (items p))%nat ->
  forallb keeps_going es = true ->
  run_settled es (p, mount p) = Some c ->
  (exists t,
      timers (snd c) = [t] /\ animations (snd c) = [] /\
      animationTimeout (snd c) = Some (timer_id t) /\
      timer_delay t = displayTime p /\
      step (Fire (timer_id t)) c <> None) \/
  (exists a,
      timers (snd c) = [] /\ animations (snd c) = [a] /\
      step (Complete 0) c <> None).
Proof.
  intros He Hn Hes Hrun.
  apply (run_where_and _ _ _ _ _ Hrun) in Hes.
  assert (Hinv : alive p c).
  { apply (run_where_invariant _ (alive p)) with (3 := Hes).
    - intros e c1 c2. apply step_alive; assumption.
    - apply mount_alive; assumption. }
  destruct c as [p' s].
  destruct (alive_cases p _ Hinv)
    as [(t & Ht & Ha & Hh & _ & Htd & _) | (a & Ht & Ha & _)];
    simpl in *.
  - left. exists t. repeat split; try assumption.
    unfold find_timer. rewrite Ht. simpl. rewrite Pos.eqb_refl.
    discriminate.
  - right. exists a. repeat split; try assumption.
    rewrite Ha. simpl. discriminate.
Qed.

Lemma rotation_keeps_going_witness :
  let p := Examples.props Examples.AB None true 0 in
  let es := [Fire 1%positive; Complete 0; StartOver; Fire 3%positive] in
  isAnimationEnabled p = true /\ (2 <= length (items p))%nat /\
  forallb keeps_going es = true /\
  exists c,
    run_settled es (p, mount p) = Some c /\
    ((exists t,
         timers (snd c) = [t] /\ animations (snd c) = [] /\
         animationTimeout (snd c) = Some (timer_id t) /\
         timer_delay t = displayTime p /\
         step (Fire (timer_id t)) c <> None) \/
     (exists a,
         timers (snd c) = [] /\ animations (snd c) = [a] /\
         step (Complete 0) c <> None)).
Proof.
  intros p es. split; [reflexivity |]. split; [simpl; lia |].
  split; [reflexivity |].
  eexists. split; [vm_compute; reflexivity |].
  apply (rotation_keeps_going p es).
  - reflexivity.
  - simpl. lia.
  - reflexivity.
  - vm_compute. reflexivity.
Defined.

(** ** [clear] and the rotation *)

(** X12. Right after a timer has fired, [clear] changes nothing: the
    callback has already nulled the handle.  So a [clear] issued while the
    animation is in flight does not stop an armed rotation: the completion
    of the animation arms the next timer, with the counter [k + 1] as a
    double, as if [clear] had not been called. *)
Theorem clear_during_animation_is_void {Item Element : Type}
    (p q : Props Item Element) (w : list Item) (k : Z)
    (s : State Item Element) (h : positive) :
  armed p w k s -> isAnimationEnabled p = true ->
  (2 <= length w)%nat -> 0 <= k ->
  animationTimeout s = Some h ->
  (forall c1, step (Fire h) (q, s) = Some c1 -> step Clear c1 = Some c1) /\
  run [Fire h; Clear; Complete (length (animations s))] (q, s)
  = advance (q, s) /\
  exists s',
    advance (q, s) = Some (q, s') /\
    armed p (shifted w) (round (k + 1)) s' /\
    animationTimeout s' <> None.
Proof.
  intros Harmed He Hl Hk Hh.
  split; [| split].
  - intros c1 Hs. simpl in Hs.
    destruct (find_timer h s); [| discriminate].
    injection Hs as <-. reflexivity.
  - unfold advance, run. simpl. rewrite Hh.
    destruct (find_timer h s) as [t |]; [| reflexivity].
    cbn.
    destruct (nth_error _ _); reflexivity.
  - destruct (advance_armed p q w k s Harmed He Hl Hk)
      as (s' & Hadv & Harmed' & _).
    exists s'. split; [exact Hadv |]. split; [exact Harmed' |].
    destruct Harmed' as (_ & _ & _ & h' & t' & Hh' & _).
    rewrite Hh'. discriminate.
Qed.

Lemma clear_during_animation_is_void_witness :
  let p := Examples.props Examples.AB None true 0 in
  armed p (rotation (items p) (startIndex p)) (startIndex p)
    (init p initial_state) /\
  observe (run [Fire 1%positive; Clear; Complete 0] (p, mount p))
  = observe (advance (p, mount p)).
Proof.
  intros p.
  assert (Harmed : armed p (rotation (items p) (startIndex p))
                     (startIndex p) (init p initial_state)).
  { assert (Hfresh : timers_fresh (@initial_state string string))
      by (split; [constructor | discriminate]).
    destruct (init_armed p initial_state Hfresh eq_refl eq_refl) as [H _];
      [simpl; lia | exact H]. }
  split; [exact Harmed |].
  pose proof (clear_during_animation_is_void p p _ _ _ 1%positive Harmed
                eq_refl (le_n 2) (Z.le_refl 0) eq_refl) as (_ & Heq & _).
  exact (f_equal observe Heq).
Defined.

(** X13. Along runs in which [init] never happens while an animation is
    in flight: when no animation is in flight, [clear] stops the carousel.
    No timer is left and none can fire, no animation can complete, and the
    window and the calls made to the observer stay as they are until the
    owner calls [startOver] or supplies new items. *)
Theorem clear_halts_rotation {Item Element : Type}
    (p : Props Item Element) (es : list (Event Item Element))
    (c : Props Item Element * State Item Element) :
  run_settled es (p, mount p) = Some c ->
  animations (snd c) = [] ->
  timers (clear (snd c)) = [] /\
  animations (clear (snd c)) = [] /\
  copiedItems (clear (snd c)) = copiedItems (snd c) /\
  shown (clear (snd c)) = shown (snd c) /\
  (forall h, step (Fire h) (fst c, clear (snd c)) = None) /\
  (forall k, step (Complete k) (fst c, clear (snd c)) = None).
Proof.
  intros Hrun Ha.
  pose proof (run_settled_single p es c Hrun) as [_ Hheld].
  pose proof (clear_no_timer (snd c) Hheld) as Ht.
  destruct (clear_fields (snd c)) as (Hc & _ & Ha' & _ & Hs & _).
  rewrite Ha in Ha'.
  repeat split; try assumption.
  - intros h. simpl. unfold find_timer. rewrite Ht. reflexivity.
  - intros k. simpl. rewrite Ha'. destruct k; reflexivity.
Qed.

Lemma clear_halts_rotation_witness :
  let p := Examples.props Examples.AB None true 0 in
  let es := [Fire 1%positive; Complete 0] in
  exists c,
    run_settled es (p, mount p) = Some c /\
    animations (snd c) = [] /\
    timers (snd c) <> [] /\
    timers (clear (snd c)) = [].
Proof.
  intros p es. eexists. split; [vm_compute; reflexivity |].
  split; [vm_compute; reflexivity |].
  split; [vm_compute; discriminate |].
  apply (clear_halts_rotation p es); vm_compute; reflexivity.
Defined.

(** ** The transition out of the default item, again *)

(** X14. When exactly one item replaces the default item (animation
    enabled, the default item flagged), whatever the start index: [init]
    displays the default item in front of the item and notifies nobody;
    the advance that follows leaves the item alone in the window, clears
    the flag, tells the observer held by the memoized [startAnimation], if
    it holds one, the item with counter [0], and arms no timer, so that no
    further advance can happen. *)
Theorem single_item_transition {Item Element : Type}
    (p : Props Item Element) (s : State Item Element) (d x : Item) :
  timers_fresh s -> isShowDefaultItemBefore s = true ->
  items p = [x] -> defaultItem p = Some d ->
  isAnimationEnabled p = true ->
  copiedItems (init p s) = [d; x] /\
  shown (init p s) = shown s /\
  exists s',
    advance (p, init p s) = Some (p, s') /\
    copiedItems s' = [x] /\
    isShowDefaultItemBefore s' = false /\
    shown s'
    = shown s ++
      (if onShow (useCallback p s) then [(Some x, Num 0)] else []) /\
    animationTimeout s' = None /\
    advance (p, s') = None.
Proof.
  intros Hfresh Hf Hi Hd He.
  assert (Hne : items p <> []) by (rewrite Hi; discriminate).
  pose proof (useCallback_enabled p s He) as He'.
  apply reset_timeout_fresh in Hfresh as [Hlt _].
  destruct (reset_timeout_fields s) as (_ & Hf' & _ & _ & Hsh & _).
  rewrite Hf in Hf'.
  rewrite (init_fallback p s d Hne Hd He Hf).
  rewrite Hi, rotation_singleton.
  rewrite startAnimation_armed by (simpl; auto).
  split; [reflexivity |]. split; [exact Hsh |].
  unfold advance. simpl.
  unfold find_timer. simpl.
  rewrite (find_timer_new _ _ _ Hlt) by reflexivity. simpl.
  match goal with
  | |- context [nth_error (?l ++ [?a]) (length ?l)] =>
      destruct (remove_nth_last l a) as [Hnth Hrem]
  end.
  rewrite Hnth, Hrem.
  unfold on_animation_end. simpl. rewrite Hf'. rewrite ?shifted_cons.
  unfold start_index, rem. simpl. rewrite Z.rem_1_r. simpl.
  eexists. split; [reflexivity |].
  destruct (onShow (useCallback p s)); simpl; rewrite Hsh; repeat split;
    rewrite ?app_nil_r; reflexivity.
Qed.

(** An observer supplied together with the single item, while the
    dependencies of [startAnimation] stay the same, is not told. *)
Lemma single_item_transition_witness :
  let p0 :=
    Examples.unobserved (Examples.props [] (Some "D"%string) true 0) in
  let p := Examples.props ["A"%string] (Some "D"%string) true 0 in
  timers_fresh (mount p0) /\ isShowDefaultItemBefore (mount p0) = true /\
  onShow p = true /\
  exists s',
    advance (p, init p (mount p0)) = Some (p, s') /\
    copiedItems s' = ["A"%string] /\
    shown s' = [].
Proof.
  intros p0 p.
  assert (Hfresh : timers_fresh (mount p0))
    by (vm_compute; split; [constructor | discriminate]).
  split; [exact Hfresh |]. split; [reflexivity |]. split; [reflexivity |].
  destruct (single_item_transition p (mount p0) "D"%string "A"%string Hfresh
              eq_refl eq_refl eq_refl eq_refl)
    as (_ & _ & s' & Hadv & Hw & _ & Hsh & _).
  exists s'. split; [exact Hadv |]. split; [exact Hw |]. exact Hsh.
Defined.

Lemma default_transition_skips_a_counter_witness :
  let p0 := Examples.props [] (Some "D"%string) true 0 in
  let p := Examples.props Examples.ABC (Some "D"%string) true 1 in
  timers_fresh (mount p0) /\ isShowDefaultItemBefore (mount p0) = true /\
  copiedItems (init p (mount p0))
  = "D"%string :: rotation (items p) (startIndex p).
Proof.
  intros p0 p.
  assert (Hfresh : timers_fresh (mount p0))
    by (vm_compute; split; [constructor | discriminate]).
  split; [exact Hfresh |]. split; [reflexivity |].
  apply (default_transition_skips_a_counter p (mount p0) "D"%string Hfresh);
    try reflexivity; unfold max_length; simpl; lia.
Defined.

(** ** The three slots of the rendered stack *)

Lemma nth_error_mapi {A B : Type} (f : A -> nat -> B) (l : list A)
    (i : nat) :
  nth_error (mapi f l) i = option_map (fun a => f a i) (nth_error l i).
Proof.
  unfold mapi. change i with (0 + i)%nat at 2.
  generalize 0%nat as start. revert i.
  induction l as [| a l IH]; intros i start; simpl.
  - destruct i; reflexivity.
  - destruct i as [| i]; simpl.
    + rewrite Nat.add_0_r. reflexivity.
    + rewrite IH. rewrite Nat.add_succ_r. reflexivity.
Qed.

(** X16. While the window is the rotation of a non-empty collection by
    [k], the rendered stack has [min 3 n] slots and slot [i] renders the
    item at index [(k + i) mod n], under the key [i]: the Visible Item
    followed by its successors in the collection. *)
Theorem render_shows_successors {Item Element : Type}
    (p : Props Item Element) (s : State Item Element) (k : Z) :
  items p <> [] ->
  copiedItems s = rotation (items p) k ->
  length (render p s) = Nat.min 3 (length (items p)) /\
  forall i : nat,
    (i < 3)%nat -> (i < length (items p))%nat ->
    exists x,
      get (items p)
        (Z.to_nat ((k + Z.of_nat i) mod Z.of_nat (length (items p))))
      = Some x /\
      get (render p s) i = Some (i, renderItem p x).
Proof.
  intros Hne Hw.
  assert (Hn : 0 < Z.of_nat (length (items p)))
    by (destruct (items p); simpl; [easy | lia]).
  unfold render. rewrite slice_first_three, Hw. split.
  - unfold mapi.
    rewrite length_map, length_combine, length_seq, Nat.min_id.
    rewrite length_firstn, rotation_length. reflexivity.
  - intros i Hi Hin.
    pose proof (Z.mod_pos_bound (k + Z.of_nat i) _ Hn) as Hb.
    destruct (nth_error (items p)
                (Z.to_nat ((k + Z.of_nat i)
                           mod Z.of_nat (length (items p)))))
      as [x |] eqn:Hx; [| apply nth_error_None in Hx; lia].
    exists x. unfold get. split; [exact Hx |].
    rewrite nth_error_mapi, nth_error_firstn.
    destruct (Nat.ltb_spec i 3) as [_ | ?]; [| lia].
    rewrite rotation_nth_error, Hx by assumption. reflexivity.
Qed.

Lemma render_shows_successors_witness :
  let p := Examples.props ["A"; "B"; "C"; "E"]%string None true 2 in
  items p <> [] /\
  copiedItems (mount p) = rotation (items p) 2 /\
  length (render p (mount p)) = Nat.min 3 (length (items p)).
Proof.
  intros p. split; [discriminate |]. split; [reflexivity |].
  apply (render_shows_successors p (mount p) 2);
    [discriminate | reflexivity].
Defined.

(** ** The observer told by the advances *)

(** X17. The owner supplies new items (two or more, animation enabled, no
    default item flagged, a start index that is not negative) to a carousel
    whose [startAnimation] was created by a render with the props [p0].
    When [displayTime], [isAnimationEnabled] and [startIndex] are those of
    [p0], React keeps that [startAnimation]: [init] tells the observer of
    the new render, but the advance that follows tells the observer of
    [p0], if [p0] had one, whatever the new props say.  When one of the
    three has changed, the advance tells the observer of the new render. *)
Theorem advance_tells_memoized_observer {Item Element : Type}
    (p0 p : Props Item Element) (s : State Item Element) :
  closure s = Some p0 ->
  timers_fresh s -> isShowDefaultItemBefore s = false ->
  isAnimationEnabled p = true ->
  (2 <= length (items p))%nat -> 0 <= startIndex p ->
  let w := rotation (items p) (startIndex p) in
  let q := if same_dependencies p0 p then p0 else p in
  closure (effect p s) = Some q /\
  shown (effect p s)
  = shown s ++ (if onShow p then [(get w 0, Num (startIndex p))] else []) /\
  exists s',
    advance (p, effect p s) = Some (p, s') /\
    copiedItems s' = shifted w /\
    shown s'
    = shown (effect p s) ++
      (if onShow q
       then [(get (shifted w) 0,
              Num (round (startIndex p + 1)
                   mod Z.of_nat (length (items p))))]
       else []).
Proof.
  intros Hc Hfresh Hf He Hn Hk w q.
  assert (Hq : useCallback p (rendered p s) = q).
  { rewrite useCallback_rendered. unfold useCallback. rewrite Hc.
    reflexivity. }
  assert (Heff : effect p s = init p (rendered p s))
    by (unfold effect; apply init_clear).
  destruct (init_armed p (rendered p s) Hfresh Hf He Hn) as [Harmed Hsh].
  rewrite Hq in Harmed. rewrite <- Heff in Harmed, Hsh.
  assert (Heq : isAnimationEnabled q = true)
    by (rewrite <- Hq; apply useCallback_enabled; exact He).
  split.
  { rewrite Heff, init_closure. simpl. f_equal.
    rewrite <- useCallback_rendered. exact Hq. }
  split; [exact Hsh |].
  destruct (advance_armed q p w (startIndex p) (effect p s) Harmed Heq)
    as (s' & Hadv & Harmed' & Hsh');
    [unfold w; rewrite rotation_length; exact Hn | exact Hk |].
  exists s'. split; [exact Hadv |].
  split; [apply Harmed' |].
  unfold w in Hsh'. rewrite rotation_length in Hsh'. exact Hsh'.
Qed.

Lemma advance_tells_memoized_observer_witness :
  let p0 := Examples.unobserved (Examples.props Examples.AB None true 0) in
  let p := Examples.props Examples.ABC None true 0 in
  closure (mount p0) = Some p0 /\ onShow p0 = false /\ onShow p = true /\
  shown (effect p (mount p0)) = [(Some "A"%string, Num 0)] /\
  exists s',
    advance (p, effect p (mount p0)) = Some (p, s') /\
    copiedItems s' = ["B"; "C"; "A"]%string /\
    shown s' = [(Some "A"%string, Num 0)].
Proof.
  intros p0 p.
  assert (Hfresh : timers_fresh (mount p0)) by apply mount_fresh.
  split; [reflexivity |]. split; [reflexivity |]. split; [reflexivity |].
  destruct (advance_tells_memoized_observer p0 p (mount p0) eq_refl Hfresh
              eq_refl eq_refl (le_S 2 2 (le_n 2)) (Z.le_refl 0))
    as (_ & Hsh & s' & Hadv & Hw & Hsh').
  split; [exact Hsh |].
  exists s'. split; [exact Hadv |]. split; [exact Hw |]. exact Hsh'.
Defined.
